(** * skeletal-gulps: the [rollup-app-vendors-sass-serve] gulpfile

    A shallow embedding of [src/rollup-app-vendors-sass-serve/gulpfile.js].

    The gulpfile is glue: it loads an optional local override, merges it
    into a literal default configuration with lodash's [_.merge], registers
    six gulp tasks and wires three stream pipelines.  The embedding keeps that
    shape:

    - [Js]        the JavaScript values the configuration is made of, with
                  property read and write, [ToString] and [JSON.stringify];
    - [Lodash]    [_.merge] as lodash 4 implements it ([baseMerge],
                  [baseMergeDeep], [assignMergeValue]);
    - [Gulpfile]  the file itself, top to bottom: [local], [config],
                  [onError], the task registry, the watch bindings and the
                  three pipelines, run in a small state-and-exception monad
                  over the log, the disk and the watchers;
    - [Demo]      one concrete set of tools, to run the file on examples;
    - [Spec]      the notions the properties are stated with.

    The facts and the properties follow: about values, about [_.merge],
    about runs of the tasks, then the properties of the configuration and
    of the pipelines.

    What third-party packages do to file contents (the bundler, the Sass
    compiler, the prefixer, the minifier, the glob matcher, the terminal
    colours) is not part of this repository; those functions are the fields
    of the class [Tools], and every property holds for all of them. *)

From Stdlib Require Import List String Ascii ZArith Bool Arith Lia.
From Stdlib Require Import Decimal DecimalNat DecimalZ DecimalString.
Import ListNotations.

Set Implicit Arguments.
Set Warnings "-register-all".

Local Open Scope string_scope.

(* ================================================================== *)
(** * JavaScript values *)
(* ================================================================== *)

Module Js.

(** The class of an object that is not an array: a plain object (created by
    an object literal or [JSON.parse]) or anything else that is neither
    callable nor array-like (no [arguments] object, buffer or typed array),
    such as the regular expression [/<\/body>/i] of the default
    configuration. *)
Inductive ocls : Type :=
| Plain
| Exotic (descr : string).

(** Values.  Numbers are integers (the configuration holds no fraction);
    a function is known by its source text and carries no properties of its
    own; an array carries its elements
    and the named properties that may have been put on it; property lists
    are in enumeration order.  Values are trees: no sharing and no cycles,
    and array holes are read as [undefined]. *)
Inductive value : Type :=
| VUndef
| VNull
| VBool (b : bool)
| VNum (n : Z)
| VStr (s : string)
| VFun (src : string)
| VArr (elems : list value) (props : list (string * value))
| VObj (c : ocls) (props : list (string * value)).

Definition plain (ps : list (string * value)) : value := VObj Plain ps.
Definition array (es : list value) : value := VArr es [].

(** ** Induction over the nesting *)

Section ValueInd.
Variable P : value -> Prop.
Hypothesis HUndef : P VUndef.
Hypothesis HNull : P VNull.
Hypothesis HBool : forall b, P (VBool b).
Hypothesis HNum : forall n, P (VNum n).
Hypothesis HStr : forall s, P (VStr s).
Hypothesis HFun : forall s, P (VFun s).
Hypothesis HArr : forall es ps,
    Forall P es -> Forall (fun kv => P (snd kv)) ps -> P (VArr es ps).
Hypothesis HObj : forall c ps,
    Forall (fun kv => P (snd kv)) ps -> P (VObj c ps).

Fixpoint value_nested_ind (v : value) : P v :=
  let fix on_elems (es : list value) : Forall P es :=
    match es with
    | [] => Forall_nil P
    | e :: r => Forall_cons e (value_nested_ind e) (on_elems r)
    end in
  let fix on_props (ps : list (string * value))
    : Forall (fun kv => P (snd kv)) ps :=
    match ps with
    | [] => Forall_nil _
    | kv :: r =>
        Forall_cons (P := fun kv => P (snd kv)) kv
                    (value_nested_ind (snd kv)) (on_props r)
    end in
  match v with
  | VUndef => HUndef
  | VNull => HNull
  | VBool b => HBool b
  | VNum n => HNum n
  | VStr s => HStr s
  | VFun s => HFun s
  | VArr es ps => HArr (on_elems es) (on_props ps)
  | VObj c ps => HObj c (on_props ps)
  end.
End ValueInd.

(** ** Type tests, as lodash and the language define them *)

Definition isObject (v : value) : bool :=
  match v with VFun _ | VArr _ _ | VObj _ _ => true | _ => false end.

Definition isFunction (v : value) : bool :=
  match v with VFun _ => true | _ => false end.

Definition isArray (v : value) : bool :=
  match v with VArr _ _ => true | _ => false end.


(** [if (v)]: the falsy values are [undefined], [null], [false], [0] and
    the empty string. *)
Definition truthy (v : value) : bool :=
  match v with
  | VUndef | VNull => false
  | VBool b => b
  | VNum n => negb (Z.eqb n 0)
  | VStr s => negb (String.eqb s "")
  | VFun _ | VArr _ _ | VObj _ _ => true
  end.

(** ** Property keys

    A property key is a string.  On an array the key that is the canonical
    decimal form of [i] names element [i]. *)

Definition key_of_idx (i : nat) : string :=
  NilEmpty.string_of_uint (Nat.to_uint i).

Definition idx_of_key (k : string) : option nat :=
  match NilEmpty.uint_of_string k with
  | Some d =>
      if String.eqb (key_of_idx (Nat.of_uint d)) k
      then Some (Nat.of_uint d) else None
  | None => None
  end.

Definition is_index (k : string) : bool :=
  match idx_of_key k with Some _ => true | None => false end.

(** ** Property lists *)

Fixpoint assoc_get (k : string) (ps : list (string * value)) : option value :=
  match ps with
  | [] => None
  | (k', x) :: r => if String.eqb k k' then Some x else assoc_get k r
  end.

(** Writing a named property keeps its place when it exists and appends it
    otherwise. *)
Fixpoint assoc_set (k : string) (x : value) (ps : list (string * value))
  : list (string * value) :=
  match ps with
  | [] => [(k, x)]
  | (k', y) :: r =>
      if String.eqb k k' then (k, x) :: r else (k', y) :: assoc_set k x r
  end.

(** Writing element [i] of an array; writing past the end extends it. *)
Fixpoint arr_set (i : nat) (x : value) (es : list value) : list value :=
  match i, es with
  | O, [] => [x]
  | O, _ :: r => x :: r
  | S j, [] => VUndef :: arr_set j x []
  | S j, e :: r => e :: arr_set j x r
  end.

(** [k in o] *)
Definition has_key (o : value) (k : string) : bool :=
  match o with
  | VArr es ps =>
      match idx_of_key k with
      | Some i => Nat.ltb i (List.length es)
      | None => match assoc_get k ps with Some _ => true | None => false end
      end
  | VObj _ ps => match assoc_get k ps with Some _ => true | None => false end
  | _ => false
  end.

(** [o[k]] *)
Definition get (o : value) (k : string) : value :=
  match o with
  | VArr es ps =>
      match idx_of_key k with
      | Some i => nth i es VUndef
      | None => match assoc_get k ps with Some x => x | None => VUndef end
      end
  | VObj _ ps => match assoc_get k ps with Some x => x | None => VUndef end
  | _ => VUndef
  end.

(** [o[k] = x], for a name [k] other than an array's [length] *)
Definition set (o : value) (k : string) (x : value) : value :=
  match o with
  | VArr es ps =>
      match idx_of_key k with
      | Some i => VArr (arr_set i x es) ps
      | None => VArr es (assoc_set k x ps)
      end
  | VObj c ps => VObj c (assoc_set k x ps)
  | _ => o
  end.

(** The own enumerable properties of a value in [for ... in] order: an
    array's elements by index and then its named properties; a string's
    characters by index. *)
Fixpoint indexed (i : nat) (es : list value) : list (string * value) :=
  match es with
  | [] => []
  | e :: r => (key_of_idx i, e) :: indexed (S i) r
  end.

Definition chars (s : string) : list value :=
  map (fun c => VStr (String c EmptyString)) (list_ascii_of_string s).

Definition entries (v : value) : list (string * value) :=
  match v with
  | VArr es ps => (indexed 0 es ++ ps)%list
  | VObj _ ps => ps
  | VStr s => indexed 0 (chars s)
  | _ => []
  end.

(** ** Well-formed values

    An object has each property once, and an element of an array is not
    also listed among its named properties. *)

Fixpoint nodup_keys (ks : list string) : bool :=
  match ks with
  | [] => true
  | k :: r => negb (existsb (String.eqb k) r) && nodup_keys r
  end.

Fixpoint wf (v : value) : bool :=
  match v with
  | VArr es ps =>
      forallb wf es
      && nodup_keys (map fst ps)
      && forallb (fun kv => negb (is_index (fst kv))) ps
      && forallb (fun kv => wf (snd kv)) ps
  | VObj _ ps =>
      nodup_keys (map fst ps) && forallb (fun kv => wf (snd kv)) ps
  | _ => true
  end.



(** ** [ToString] and string concatenation

    [v + '...'] with a string on the right converts [v] with [ToString]
    and concatenates. *)

(** The decimal digits of an integer, which is how JavaScript prints it
    below [1e21]. *)
Definition string_of_Z (n : Z) : string :=
  NilEmpty.string_of_int (Z.to_int n).

Fixpoint join (sep : string) (l : list string) : string :=
  match l with
  | [] => EmptyString
  | [s] => s
  | s :: r => (s ++ sep ++ join sep r)%string
  end.

Fixpoint ToString (v : value) : string :=
  match v with
  | VUndef => "undefined"
  | VNull => "null"
  | VBool true => "true"
  | VBool false => "false"
  | VNum n => string_of_Z n
  | VStr s => s
  | VFun src => src
  | VArr es _ =>
      join ","
           (map (fun e => match e with
                          | VUndef | VNull => EmptyString
                          | _ => ToString e
                          end) es)
  | VObj Plain _ => "[object Object]"
  | VObj (Exotic descr) _ => descr
  end.

Definition add_str (v : value) (s : string) : string :=
  (ToString v ++ s)%string.

(** ** [JSON.stringify] *)

Definition dquote : ascii := "034"%char.
Definition bslash : ascii := "092"%char.

Definition hex_digit (n : nat) : ascii :=
  nth n (list_ascii_of_string "0123456789abcdef") "0"%char.

Definition json_escape_char (c : ascii) : string :=
  let n := nat_of_ascii c in
  if Ascii.eqb c dquote then String bslash (String dquote EmptyString)
  else if Ascii.eqb c bslash then String bslash (String bslash EmptyString)
  else if Nat.eqb n 8 then String bslash "b"
  else if Nat.eqb n 9 then String bslash "t"
  else if Nat.eqb n 10 then String bslash "n"
  else if Nat.eqb n 12 then String bslash "f"
  else if Nat.eqb n 13 then String bslash "r"
  else if Nat.ltb n 32
       then String bslash
              (String "u" (String "0" (String "0"
                 (String (hex_digit (n / 16))
                    (String (hex_digit (n mod 16)) EmptyString)))))
  else String c EmptyString.

Fixpoint json_escape (s : string) : string :=
  match s with
  | EmptyString => EmptyString
  | String c r => (json_escape_char c ++ json_escape r)%string
  end.

Definition json_quote (s : string) : string :=
  String dquote (json_escape s ++ String dquote EmptyString).

(** The serialisation of a value, [None] where [JSON.stringify] yields
    [undefined] ([undefined] itself and functions).  Inside an array such a
    value is written [null]; inside an object its property is left out.  The
    named properties of an array are not serialised. *)
Fixpoint json_text (v : value) : option string :=
  match v with
  | VUndef | VFun _ => None
  | VNull => Some "null"
  | VBool true => Some "true"
  | VBool false => Some "false"
  | VNum n => Some (string_of_Z n)
  | VStr s => Some (json_quote s)
  | VArr es _ =>
      Some ("[" ++ join ","
                     (map (fun e => match json_text e with
                                    | Some t => t
                                    | None => "null"
                                    end) es)
                ++ "]")%string
  | VObj _ ps =>
      Some ("{" ++ join ","
                     (flat_map (fun kv => match json_text (snd kv) with
                                          | Some t =>
                                              [(json_quote (fst kv) ++ ":" ++ t)%string]
                                          | None => []
                                          end) ps)
                ++ "}")%string
  end.

Definition JSON_stringify (v : value) : value :=
  match json_text v with Some t => VStr t | None => VUndef end.

End Js.

(* ================================================================== *)
(** * lodash: [_.merge]

    [config] is [_.merge(defaults, local)] (line 54).  lodash is not part of
    the repository; the functions below follow its version 4.17
    ([merge] = [createAssigner] over [baseMerge], with [baseMergeDeep] and
    [assignMergeValue]) on the values of [Js]: no customizer, no cyclic
    sources, own properties only, and [length] and [__proto__] are keys like
    any other. *)
(* ================================================================== *)

Module Lodash.
Import Js.

(** [assignMergeValue(object, key, value)]: the write is skipped when the
    value is [undefined] and the key is already there.  (lodash also skips a
    write of the value the key already has, which changes nothing.) *)
Definition assignMergeValue (object : value) (key : string) (x : value)
  : value :=
  match x with
  | VUndef => if has_key object key then object else set object key x
  | _ => set object key x
  end.

(** [baseMergeDeep] without a customizer, given the function that merges a
    source into a destination: the value that ends up under a key whose
    destination value is [objValue] and whose source value is [srcValue].
    An array source is merged into the destination array or else into a new
    [[]]; a plain source is merged into the destination object (any object
    that is not a function) or else into a new [{}]; every other source
    value is taken as it is.  The destination is taken not to be array-like
    unless it is an array (no object with a [length], see
    [Js.ordinary_keys]), so the [copyArray] branch is not modelled. *)
Definition mergeDeepWith (rec : value -> value -> value)
           (objValue srcValue : value) : value :=
  match srcValue with
  | VArr _ _ =>
      rec (if isArray objValue then objValue else VArr [] []) srcValue
  | VObj Plain _ =>
      rec (if isObject objValue && negb (isFunction objValue)
           then objValue else VObj Plain [])
          srcValue
  | _ => srcValue
  end.

(** [baseMerge(object, source)]: for every enumerable key of [source], in
    order, compute the merged value from what the destination holds under
    that key at that moment and assign it. *)
Fixpoint baseMerge (object source : value) {struct source} : value :=
  let step (acc : value) (k : string) (v : value) : value :=
    assignMergeValue acc k (mergeDeepWith baseMerge (get acc k) v) in
  let fix on_elems (i : nat) (es : list value) (acc : value) : value :=
    match es with
    | [] => acc
    | e :: r => on_elems (S i) r (step acc (key_of_idx i) e)
    end in
  let fix on_props (ps : list (string * value)) (acc : value) : value :=
    match ps with
    | [] => acc
    | (k, v) :: r => on_props r (step acc k v)
    end in
  match source with
  | VArr es ps => on_props ps (on_elems 0 es object)
  | VObj _ ps => on_props ps object
  | VStr s =>
      fold_left (fun acc kv => assignMergeValue acc (fst kv) (snd kv))
                (indexed 0 (chars s)) object
  | _ => object
  end.

(** [_.merge(object, source)]: a falsy source is skipped. *)
Definition merge (object source : value) : value :=
  if truthy source then baseMerge object source else object.

(** The same computation, one key at a time. *)
Definition newValue : value -> value -> value := mergeDeepWith baseMerge.

Definition mergeStep (acc : value) (kv : string * value) : value :=
  assignMergeValue acc (fst kv) (newValue (get acc (fst kv)) (snd kv)).

End Lodash.

(* ================================================================== *)
(** * The gulpfile *)
(* ================================================================== *)

Module Gulpfile.
Import Js Lodash.

(** ** What the gulpfile hands to other packages *)

(** A file travelling through a gulp stream: its path relative to the
    stream's base, its contents, and the source map gulp-sourcemaps attached
    to it, if any. *)
Record SourceMap : Type := {
  sm_file : string;
  sm_sources : list string;
  sm_mappings : string
}.

Record File : Type := {
  path : string;
  contents : string;
  sourceMap : option SourceMap
}.

(** The files on disk, by path. *)
Definition Disk : Type := list (string * string).

Record Error : Type := { message : string }.

Inductive result (A : Type) : Type :=
| Ok (a : A)
| Err (e : Error).
Arguments Ok {A} a.
Arguments Err {A} e.

(** The option objects, field by field as the tasks build them. *)
Record HtmlMinifierOptions : Type := {
  collapseWhitespace : bool;
  collapseBooleanAttributes : bool;
  conservativeCollapse : bool
}.

Inductive Plugin : Type :=
| html (include : string) (htmlMinifierOptions : HtmlMinifierOptions)
| replace (options : list (string * value))
| nodeResolve (browser : bool) (preferBuiltins : option bool)
| commonjs (include : list string) (sourceMap : value)
| buble.

Record RollupOptions : Type := {
  entry : string;
  format : string;
  moduleName : string;
  rollup_sourceMap : value;
  plugins : list Plugin
}.

Record SassOptions : Type := {
  includePaths : list string;
  outputStyle : string;
  precision : string
}.

Record AutoprefixerOptions : Type := { browsers : value }.

Record CssoOptions : Type := { restructure : bool }.

(** What a stream plugin computes for one file: the new path, the new
    contents, and the mappings to record in the file's source map when it
    carries one. *)
Record Transformed : Type := {
  t_path : string;
  t_contents : string;
  t_mappings : string
}.

(** The packages the gulpfile calls.  Each is a function of its options and
    its input; nothing else is known about it. *)
Class Tools : Type := {
  (** minimatch, as gulp.watch uses it: pattern, then path *)
  minimatch : string -> string -> bool;
  (** gulp.src: the files of the disk a glob selects *)
  gulp_src : string -> Disk -> list File;
  (** rollup-stream: the bundle's text, or an error *)
  rollup : RollupOptions -> Disk -> result string;
  (** gulp-sass on one file: the compiled stylesheet, nothing for a file
      it passes over without output (a partial), or an error *)
  sass : SassOptions -> File -> result (option Transformed);
  (** gulp-autoprefixer and gulp-csso on one file *)
  autoprefixer : AutoprefixerOptions -> File -> result Transformed;
  csso : CssoOptions -> File -> result Transformed;
  (** gulp-sourcemaps: a map's file contents, and the comment that refers
      a file (first argument) to its map (second argument) *)
  map_json : SourceMap -> string;
  map_comment : string -> string -> string;
  (** gulp-util's colours *)
  bgMagenta_bold : string -> string;
  bgRed_bold : string -> string;
  red_bold : string -> string
}.

(** ** The process: what tasks read and change *)

Inductive WatchAction : Type :=
| RunTasks (names : list string)
| Reload.

Record Watcher : Type := {
  w_globs : list string;
  w_action : WatchAction
}.

Record World : Type := {
  log : list string;          (* lines written by gutil.log *)
  disk : Disk;
  ended : list string;        (* streams on which 'end' was emitted by hand *)
  watchers : list Watcher;    (* gulp.watch bindings in force *)
  reloads : nat;              (* calls of browserSync.reload *)
  serving : option value;     (* the options browserSync.init was given *)
  started : list string       (* the tasks whose action has been run *)
}.

(** Computations that change the world and may throw. *)
Definition M (A : Type) : Type := World -> (A + Error) * World.

Definition ret {A : Type} (a : A) : M A := fun w => (inl a, w).

Definition bind {A B : Type} (m : M A) (k : A -> M B) : M B :=
  fun w => match m w with
           | (inl a, w') => k a w'
           | (inr e, w') => (inr e, w')
           end.

Definition throw {A : Type} (e : Error) : M A := fun w => (inr e, w).

Definition try_catch {A : Type} (m : M A) (h : Error -> M A) : M A :=
  fun w => match m w with
           | (inl a, w') => (inl a, w')
           | (inr e, w') => h e w'
           end.

Notation "x <- m ;; k" := (bind m (fun x => k))
  (at level 61, m at next level, right associativity).
Notation "m ;;; k" := (bind m (fun _ => k))
  (at level 61, right associativity).

Fixpoint forM {A : Type} (l : list A) (f : A -> M unit) : M unit :=
  match l with
  | [] => ret tt
  | a :: r => f a ;;; forM r f
  end.

Definition gutil_log (line : string) : M unit :=
  fun w => (inl tt,
            {| log := (log w ++ [line])%list; disk := disk w; ended := ended w;
               watchers := watchers w; reloads := reloads w;
               serving := serving w; started := started w |}).

Definition emit_end (stream : string) : M unit :=
  fun w => (inl tt,
            {| log := log w; disk := disk w;
               ended := (ended w ++ [stream])%list;
               watchers := watchers w; reloads := reloads w;
               serving := serving w; started := started w |}).

Definition get_disk : M Disk := fun w => (inl (disk w), w).

Definition task_started (name : string) : M unit :=
  fun w => (inl tt,
            {| log := log w; disk := disk w; ended := ended w;
               watchers := watchers w; reloads := reloads w;
               serving := serving w;
               started := (started w ++ [name])%list |}).

Fixpoint disk_write (p c : string) (d : Disk) : Disk :=
  match d with
  | [] => [(p, c)]
  | (p', c') :: r =>
      if String.eqb p p' then (p, c) :: r else (p', c') :: disk_write p c r
  end.

Definition write_file (p c : string) : M unit :=
  fun w => (inl tt,
            {| log := log w; disk := disk_write p c (disk w);
               ended := ended w; watchers := watchers w;
               reloads := reloads w; serving := serving w;
               started := started w |}).

Definition gulp_watch (b : Watcher) : M unit :=
  fun w => (inl tt,
            {| log := log w; disk := disk w; ended := ended w;
               watchers := (watchers w ++ [b])%list; reloads := reloads w;
               serving := serving w; started := started w |}).

Definition browserSync_reload : M unit :=
  fun w => (inl tt,
            {| log := log w; disk := disk w; ended := ended w;
               watchers := watchers w; reloads := S (reloads w);
               serving := serving w; started := started w |}).

Definition browserSync_init (options : value) : M unit :=
  fun w => (inl tt,
            {| log := log w; disk := disk w; ended := ended w;
               watchers := watchers w; reloads := reloads w;
               serving := Some options; started := started w |}).

Section WithTools.
Context {T : Tools}.

(** ** Setup local settings (lines 41-48)

    [require('./.local')] either yields what the module exports or throws;
    [found] is that outcome. *)

Definition require_local (found : option value) : M value :=
  match found with
  | Some v => ret v
  | None => throw {| message := "Cannot find module './.local'" |}
  end.

Definition load_local (found : option value) : M value :=
  try_catch
    (gutil_log (bgMagenta_bold " === Local build === ") ;;;
     require_local found)
    (fun _ =>
       gutil_log (bgMagenta_bold " === Production build === ") ;;;
       ret (plain [])).

(** ** Configs (lines 54-83) *)

Definition default_config : value :=
  plain
    [ ("sourcemaps", VBool true);
      ("sassSource", VStr "./resources/assets/sass");
      ("appSource", VStr "./resources/assets/app");
      ("jsSource", VStr "./resources/assets/js");
      ("browsersync",
        plain
          [ ("open", VBool false);
            ("notify", VBool false);
            ("snippetOptions",
              plain
                [ ("rule",
                    plain
                      [ ("match", VObj (Exotic "/<\/body>/i") []);
                        ("fn", VFun "(snippet, match) => snippet + match") ])
                ])
          ]);
      ("supportedBrowsers",
        array [VStr "iOS 9"; VStr "ie >= 10"; VStr "last 2 Chrome versions"])
    ].

Definition config (local : value) : value := merge default_config local.

(** ** Functions (lines 94-97)

    [this] is the stream the handler was registered on. *)

Definition onError (this : string) (error : Error) : M unit :=
  gutil_log (bgRed_bold "  ERROR " ++ " " ++ red_bold (message error)) ;;;
  emit_end this.

(** ** Pipelines

    A pipeline is what a task returns: a head that produces files and the
    stages it is piped through, each with or without
    [.on('error', onError)] after it.

    A run takes the files through one stage after the other.  A stage that
    fails on a file emits ['error'] and pushes nothing further; what it
    pushed before still travels on.  How Node interleaves the stages in
    time is not modelled. *)

Inductive Stage : Type :=
| buffer
| sourcemaps_init
| sourcemaps_write (dir : string)
| sass_stage (o : SassOptions)
| autoprefixer_stage (o : AutoprefixerOptions)
| csso_stage (o : CssoOptions)
| gulp_dest (dir : string).

Inductive Head : Type :=
(** [gulp.src(glob)] *)
| src (glob : string)
(** [rollup(options).on('error', onError).pipe(source(file))] when
    [handled], without the [.on] otherwise *)
| rollup_source (options : RollupOptions) (handled : bool) (file : string).

Record Piped : Type := {
  stage : Stage;
  handled : bool
}.

Definition pipe (s : Stage) : Piped := {| stage := s; handled := false |}.
Definition pipe_on_error (s : Stage) : Piped :=
  {| stage := s; handled := true |}.

Record Pipeline : Type := {
  head : Head;
  pipes : list Piped
}.

Definition stage_name (s : Stage) : string :=
  match s with
  | buffer => "buffer"
  | sourcemaps_init => "sourcemaps.init"
  | sourcemaps_write _ => "sourcemaps.write"
  | sass_stage _ => "sass"
  | autoprefixer_stage _ => "autoprefixer"
  | csso_stage _ => "csso"
  | gulp_dest _ => "gulp.dest"
  end.

(** [path.join(dir, p)] for the directories the gulpfile uses. *)
Definition path_join (dir p : string) : string :=
  if String.eqb dir "." || String.eqb dir "./" then p
  else (dir ++ "/" ++ p)%string.

Definition apply_transformed (f : File) (t : Transformed) : File :=
  {| path := t_path t;
     contents := t_contents t;
     sourceMap :=
       match sourceMap f with
       | Some m => Some {| sm_file := t_path t;
                           sm_sources := sm_sources m;
                           sm_mappings := t_mappings t |}
       | None => None
       end |}.

Definition map_file (dir : string) (f : File) (m : SourceMap) : File :=
  {| path := path_join dir (path f ++ ".map");
     contents := map_json m;
     sourceMap := None |}.

Definition with_map_comment (dir : string) (f : File) : File :=
  {| path := path f;
     contents :=
       (contents f ++ map_comment (path f) (path_join dir (path f ++ ".map")))%string;
     sourceMap := sourceMap f |}.

(** [sourcemaps.init()] on one file: a file without a source map gets the
    identity map. *)
Definition init_map (f : File) : File :=
  match sourceMap f with
  | Some _ => f
  | None => {| path := path f; contents := contents f;
               sourceMap := Some {| sm_file := path f;
                                    sm_sources := [path f];
                                    sm_mappings := "" |} |}
  end.

(** [sourcemaps.write(dir)] on one file: a file with a source map is pushed
    after its map file and refers to it; a file without one passes. *)
Definition write_map (dir : string) (f : File) : list File :=
  match sourceMap f with
  | Some m => [map_file dir f m; with_map_comment dir f]
  | None => [f]
  end.

Definition transformed (f : File) (r : result Transformed)
  : result (list File) :=
  match r with
  | Ok t => Ok [apply_transformed f t]
  | Err e => Err e
  end.

(** What a stage pushes downstream for one file, or its failure.  The
    failures are those of the compiling stages; the disk is taken to accept
    every write of [gulp.dest]. *)
Definition run_stage (s : Stage) (f : File) : result (list File) :=
  match s with
  | buffer => Ok [f]
  | sourcemaps_init => Ok [init_map f]
  | sourcemaps_write dir => Ok (write_map dir f)
  | sass_stage o =>
      match sass o f with
      | Ok (Some t) => Ok [apply_transformed f t]
      | Ok None => Ok []
      | Err e => Err e
      end
  | autoprefixer_stage o => transformed f (autoprefixer o f)
  | csso_stage o => transformed f (csso o f)
  | gulp_dest _ => Ok [f]
  end.

(** A stage over the files that reach it, in order: what it pushed before
    the first failure, and that failure. *)
Fixpoint run_stage_files (s : Stage) (fs : list File)
  : list File * option Error :=
  match fs with
  | [] => ([], None)
  | f :: r =>
      match run_stage s f with
      | Ok out =>
          let (outs, e) := run_stage_files s r in ((out ++ outs)%list, e)
      | Err e => ([], Some e)
      end
  end.

(** An ['error'] event on a stream: the registered handler runs, and
    without one the event is thrown. *)
Definition emit_error (stream : string) (on_error : bool) (e : Error)
  : M unit :=
  if on_error then onError stream e else throw e.

Definition run_piped (p : Piped) (fs : list File) : M (list File) :=
  let (outs, failure) := run_stage_files (stage p) fs in
  match failure with
  | Some e => emit_error (stage_name (stage p)) (handled p) e
  | None => ret tt
  end ;;;
  match stage p with
  | gulp_dest dir =>
      forM outs (fun f => write_file (path_join dir (path f)) (contents f))
  | _ => ret tt
  end ;;;
  ret outs.

Fixpoint run_pipes (ps : list Piped) (fs : list File) : M (list File) :=
  match ps with
  | [] => ret fs
  | p :: r => outs <- run_piped p fs ;; run_pipes r outs
  end.

Definition run_head (h : Head) : M (list File) :=
  d <- get_disk ;;
  match h with
  | src glob => ret (gulp_src glob d)
  | rollup_source o on_error file =>
      match rollup o d with
      | Ok code =>
          ret [{| path := file; contents := code; sourceMap := None |}]
      | Err e => emit_error "rollup" on_error e ;;; ret []
      end
  end.

Definition run_pipeline (p : Pipeline) : M (list File) :=
  fs <- run_head (head p) ;; run_pipes (pipes p) fs.

(** ** Task: app (lines 146-181) *)

Section Tasks.
Variable local : value.

Definition app_rollupOptions : RollupOptions :=
  let file := "app.js" in
  {| entry := add_str (get (config local) "appSource") ("/" ++ file);
     format := "iife";
     moduleName := file;
     rollup_sourceMap := get (config local) "sourcemaps";
     plugins :=
       [ html (add_str (get (config local) "appSource") "/**/*.html")
              {| collapseWhitespace := true;
                 collapseBooleanAttributes := true;
                 conservativeCollapse := true |};
         replace [ ("ENV_LOCAL", JSON_stringify local);
                   ("exclude", VStr "./node_modules/**") ];
         nodeResolve true None;
         buble ] |}.

Definition app : Pipeline :=
  {| head := rollup_source app_rollupOptions true "app.js";
     pipes := [ pipe buffer;
                pipe sourcemaps_init;
                pipe (sourcemaps_write ".");
                pipe (gulp_dest "./public/js") ] |}.

(** ** Task: vendors (lines 187-218) *)

Definition vendors_rollupOptions : RollupOptions :=
  let file := "vendors.js" in
  {| entry := add_str (get (config local) "jsSource") ("/" ++ file);
     format := "iife";
     moduleName := file;
     rollup_sourceMap := get (config local) "sourcemaps";
     plugins :=
       [ nodeResolve true (Some false);
         commonjs [ "node_modules/**";
                    add_str (get (config local) "jsSource") "/**" ]
                  (get (config local) "sourcemaps");
         buble ] |}.

Definition vendors : Pipeline :=
  {| head := rollup_source vendors_rollupOptions true "vendors.js";
     pipes := [ pipe buffer;
                pipe sourcemaps_init;
                pipe (sourcemaps_write ".");
                pipe (gulp_dest "./public/js") ] |}.

(** ** Task: sass (lines 224-262) *)

Definition autoprefixerOptions : AutoprefixerOptions :=
  {| browsers := get (config local) "supportedBrowsers" |}.

Definition cssoOptions : CssoOptions := {| restructure := false |}.

Definition sassOptions : SassOptions :=
  {| includePaths := ["node_modules"];
     outputStyle := "compressed";
     precision := "2" |}.

Definition sass_task : Pipeline :=
  {| head := src (add_str (get (config local) "sassSource") "/**/*.scss");
     pipes := [ pipe sourcemaps_init;
                pipe_on_error (sass_stage sassOptions);
                pipe_on_error (autoprefixer_stage autoprefixerOptions);
                pipe_on_error (csso_stage cssoOptions);
                pipe (sourcemaps_write "./");
                pipe (gulp_dest "./public/css") ] |}.

(** ** Task: watch (lines 109-132) *)

Definition watch_tasks : list Watcher :=
  [ {| w_globs := [add_str (get (config local) "sassSource") "/**/*.scss"];
       w_action := RunTasks ["sass"] |};
    {| w_globs := [add_str (get (config local) "appSource") "/**/*.js";
                   add_str (get (config local) "appSource") "/**/*.html"];
       w_action := RunTasks ["app"] |};
    {| w_globs := [add_str (get (config local) "jsSource") "/**/*.js"];
       w_action := RunTasks ["vendors"] |} ].

Definition watch_reload : Watcher :=
  {| w_globs := [ "./public/js/app.js";
                  "./public/js/vendors.js";
                  "./public/css/app.css" ];
     w_action := Reload |}.

Definition watch : M unit :=
  forM watch_tasks gulp_watch ;;;
  gulp_watch watch_reload.

(** ** Task: serve (lines 138-140) *)

Definition serve : M unit := browserSync_init (get (config local) "browsersync").

(** ** The task registry

    [gulp.task(name, deps, fn)]: the tasks a task depends on, and what it
    does. *)

Definition task_deps (name : string) : list string :=
  if String.eqb name "default" then ["app"; "vendors"; "sass"]
  else if String.eqb name "watch" then ["default"]
  else if String.eqb name "serve" then ["watch"]
  else [].

Definition drain (p : Pipeline) : M unit := run_pipeline p ;;; ret tt.

Definition task_body (name : string) : M unit :=
  if String.eqb name "default" then ret tt
  else if String.eqb name "watch" then watch
  else if String.eqb name "serve" then serve
  else if String.eqb name "app" then drain app
  else if String.eqb name "vendors" then drain vendors
  else if String.eqb name "sass" then drain sass_task
  else throw {| message := "Task '" ++ name ++ "' is not in your gulpfile" |}.

Definition task_action (name : string) : M unit :=
  task_started name ;;; task_body name.

(** [gulp.start(name)]: the dependencies first, then the task.  The
    registry is four levels deep. *)
Fixpoint start_at (depth : nat) (name : string) : M unit :=
  match depth with
  | O => task_action name
  | S d => forM (task_deps name) (start_at d) ;;; task_action name
  end.

Definition start (name : string) : M unit := start_at 3 name.

(** ** A change on disk while watching

    Every binding one of whose globs matches the changed path acts: its
    tasks are started, or the browser is told to reload. *)

Definition watcher_matches (b : Watcher) (p : string) : bool :=
  existsb (fun g => minimatch g p) (w_globs b).

Definition fire (b : Watcher) : M unit :=
  match w_action b with
  | RunTasks names => forM names start
  | Reload => browserSync_reload
  end.

Definition on_change (p : string) : M unit :=
  fun w =>
    forM (filter (fun b => watcher_matches b p) (watchers w)) fire w.

(** The tasks a change of [p] starts, given the bindings in force. *)
Definition tasks_started (bs : list Watcher) (p : string) : list string :=
  flat_map (fun b => match w_action b with
                     | RunTasks names =>
                         if watcher_matches b p then names else []
                     | Reload => []
                     end) bs.

Definition reload_signalled (bs : list Watcher) (p : string) : bool :=
  existsb (fun b => match w_action b with
                    | Reload => watcher_matches b p
                    | RunTasks _ => false
                    end) bs.

End Tasks.
End WithTools.

End Gulpfile.

(* ================================================================== *)
(** * One concrete set of tools

    A small stand-in for the packages, used to run the gulpfile on concrete
    inputs: a glob matcher with [*] and [**/], a bundler that returns its
    entry file, a Sass compiler that renames [.scss] to [.css] and rejects
    an empty file, and ANSI colours. *)
(* ================================================================== *)

Module Demo.
Import Js Gulpfile.

Definition slash : ascii := "/"%char.
Definition star : ascii := "*"%char.

(** [*]: any run of characters other than [/], then the rest. *)
Fixpoint match_star (rest : list ascii -> bool) (s : list ascii) : bool :=
  rest s
  || match s with
     | [] => false
     | c :: s' => negb (Ascii.eqb c slash) && match_star rest s'
     end.

(** [**/]: nothing, or any run that ends in [/], then the rest. *)
Fixpoint match_dirs (rest : list ascii -> bool) (at_start : bool)
         (s : list ascii) : bool :=
  (at_start && rest s)
  || match s with
     | [] => false
     | c :: s' => match_dirs rest (Ascii.eqb c slash) s'
     end.

Fixpoint glob_match (pat s : list ascii) {struct pat} : bool :=
  match pat with
  | [] => match s with [] => true | _ :: _ => false end
  | c :: pat' =>
      if Ascii.eqb c star then
        match pat' with
        | c2 :: c3 :: pat'' =>
            if Ascii.eqb c2 star && Ascii.eqb c3 slash
            then match_dirs (glob_match pat'') true s
            else match_star (glob_match pat') s
        | _ => match_star (glob_match pat') s
        end
      else
        match s with
        | [] => false
        | d :: s' => Ascii.eqb c d && glob_match pat' s'
        end
  end.

Definition demo_minimatch (pattern p : string) : bool :=
  glob_match (list_ascii_of_string pattern) (list_ascii_of_string p).

(** The part of a glob before its first [*]. *)
Fixpoint glob_base (pat : string) : string :=
  match pat with
  | EmptyString => EmptyString
  | String c r => if Ascii.eqb c star then EmptyString else String c (glob_base r)
  end.

Definition drop_prefix (n : nat) (s : string) : string :=
  substring n (String.length s - n) s.

Definition demo_gulp_src (glob : string) (d : Disk) : list File :=
  map (fun pc => {| path := drop_prefix (String.length (glob_base glob)) (fst pc);
                    contents := snd pc;
                    sourceMap := None |})
      (filter (fun pc => demo_minimatch glob (fst pc)) d).

Fixpoint disk_read (p : string) (d : Disk) : option string :=
  match d with
  | [] => None
  | (p', c) :: r => if String.eqb p p' then Some c else disk_read p r
  end.

Definition demo_rollup (o : RollupOptions) (d : Disk) : result string :=
  match disk_read (entry o) d with
  | Some code => Ok code
  | None => Err {| message := "Could not resolve entry (" ++ entry o ++ ")" |}
  end.

Definition css_path (p : string) : string :=
  (substring 0 (String.length p - 5) p ++ ".css")%string.

Definition demo_sass (o : SassOptions) (f : File)
  : result (option Transformed) :=
  if String.eqb (contents f) ""
  then Err {| message := path f ++ ": file to import not found or unreadable" |}
  else if String.prefix "_" (path f) then Ok None
  else Ok (Some {| t_path := css_path (path f);
                   t_contents := contents f;
                   t_mappings := "AAAA" |}).

Definition keep (f : File) : result Transformed :=
  Ok {| t_path := path f; t_contents := contents f; t_mappings := "AAAA" |}.

Definition esc (code : string) : string := String "027"%char ("[" ++ code ++ "m").

Definition ansi (open close : list string) (s : string) : string :=
  (concat "" (map esc open) ++ s ++ concat "" (map esc close))%string.

#[export] Instance demo_tools : Tools := {|
  minimatch := demo_minimatch;
  gulp_src := demo_gulp_src;
  rollup := demo_rollup;
  sass := demo_sass;
  autoprefixer := fun _ => keep;
  csso := fun _ => keep;
  map_json := fun m => ("{file:" ++ sm_file m ++ ",mappings:" ++ sm_mappings m ++ "}")%string;
  map_comment := fun _ url => ("/*# sourceMappingURL=" ++ url ++ " */")%string;
  bgMagenta_bold := ansi ["45"; "1"] ["22"; "49"];
  bgRed_bold := ansi ["41"; "1"] ["22"; "49"];
  red_bold := ansi ["31"; "1"] ["22"; "39"]
|}.

(** A process that has done nothing yet, on a given disk. *)
Definition fresh (d : Disk) : World :=
  {| log := []; disk := d; ended := []; watchers := []; reloads := 0;
     serving := None; started := [] |}.

Definition demo_disk : Disk :=
  [ ("./resources/assets/sass/app.scss", "a{b:c}");
    ("./resources/assets/app/app.js", "var cfg = ENV_LOCAL;");
    ("./resources/assets/js/vendors.js", "require('x');") ].


End Demo.

(* ================================================================== *)
(** * Notions used to state the properties *)
(* ================================================================== *)

Module Spec.
Import Js Lodash Gulpfile.

(** A mapping in the wide sense: a value that carries properties, so an
    object that is not a function, or an array. *)
Definition holds_props (o : value) : bool :=
  match o with VArr _ _ | VObj _ _ => true | _ => false end.

(** [absorbed a (k, v)]: merging the entry [(k, v)] into [a] once more
    changes nothing. *)
Definition absorbed (a : value) (kv : string * value) : Prop :=
  has_key a (fst kv) = true
  /\ (newValue (get a (fst kv)) (snd kv) = VUndef
      \/ newValue (get a (fst kv)) (snd kv) = get a (fst kv)).

(** Merging [v] into a mapping twice is merging it once. *)
Definition merged_once (v : value) : Prop :=
  forall o, holds_props o = true -> baseMerge (baseMerge o v) v = baseMerge o v.




(** ** What a pipeline reads and where it writes *)

Definition input_of (p : Pipeline) : string :=
  match head p with
  | src glob => glob
  | rollup_source o _ _ => entry o
  end.

Definition dest_dirs (p : Pipeline) : list string :=
  flat_map (fun q => match stage q with
                     | gulp_dest dir => [dir]
                     | _ => []
                     end) (pipes p).

(** The three pipelines, as functions of the local override. *)
Definition pipelines : list (value -> Pipeline) := [app; vendors; sass_task].

(** A path is driven by the configuration when some override moves it
    away from its default. *)
Definition follows_override (f : value -> list string) : Prop :=
  exists local, f local <> f (plain []).

(** The files a pipeline hands to [gulp.dest], [[]] if it threw. *)
Definition emitted {T : Tools} (p : Pipeline) (w : World) : list File :=
  match run_pipeline p w with
  | (inl fs, _) => fs
  | (inr _, _) => []
  end.

Fixpoint ends_with_map (p : string) : bool :=
  String.eqb p ".map"
  || match p with
     | EmptyString => false
     | String _ r => ends_with_map r
     end.

Definition map_emitted {T : Tools} (p : Pipeline) (w : World) : bool :=
  existsb (fun f => ends_with_map (path f)) (emitted p w).

Definition sourcemaps_enabled (local : value) : bool :=
  truthy (get (config local) "sourcemaps").

(** "A map is produced if and only if the option is enabled", for every
    set of tools, override, pipeline and starting world. *)
Definition map_iff_enabled : Prop :=
  forall (T : Tools) (local : value) (task : value -> Pipeline) (w : World),
    In task pipelines ->
    map_emitted (task local) w = sourcemaps_enabled local.

(** Every emitted file with a source map attached comes with its [.map]
    file, and every other emitted file is such a [.map] file. *)
Definition accompanied (fs : list File) : Prop :=
  forall f, In f fs ->
    match sourceMap f with
    | Some _ =>
        exists g, In g fs /\ path g = (path f ++ ".map")%string
                  /\ sourceMap g = None
    | None =>
        exists a, In a fs /\ path f = (path a ++ ".map")%string
                  /\ sourceMap a <> None
    end.


(** The tasks that run a pipeline and depend on nothing. *)
Definition leaf_task (name : string) : bool :=
  String.eqb name "app" || String.eqb name "vendors" || String.eqb name "sass".



(** Several files through one stage after the other. *)
Definition pipes_outputs {T : Tools} (ss : list Stage) (fs : list File)
  : list File :=
  fold_left (fun fs s => fst (run_stage_files s fs)) ss fs.

(** A stage that does not take the process down: [run_stage] reports no
    error for it (the disk is taken to accept every write), or its errors
    are handled. *)
Definition infallible (s : Stage) : bool :=
  match s with
  | sass_stage _ | autoprefixer_stage _ | csso_stage _ => false
  | _ => true
  end.

(** A pipeline run up to its last stage, the destination: what is handed
    to [gulp.dest]. *)
Definition before_dest {T : Tools} (p : Pipeline) : M (list File) :=
  fs <- run_head (head p) ;; run_pipes (removelast (pipes p)) fs.


Definition safe (p : Piped) : bool := handled p || infallible (stage p).

Definition safe_head (h : Head) : bool :=
  match h with
  | src _ => true
  | rollup_source _ on_error _ => on_error
  end.

(** What a run may change besides the log, the disk and the ended
    streams: it signals [n] reloads and starts the tasks [names]. *)
Definition session (n : nat) (names : list string) (w w' : World) : Prop :=
  watchers w' = watchers w
  /\ serving w' = serving w
  /\ reloads w' = reloads w + n
  /\ started w' = (started w ++ names)%list.

(** [m] returns normally from every world, and [R] relates the worlds. *)
Definition returns {A : Type} (m : M A) (R : World -> World -> Prop) : Prop :=
  forall w, exists a w', m w = (inl a, w') /\ R w w'.

Definition reload_count {T : Tools} (bs : list Watcher) (p : string) : nat :=
  List.length (filter (fun b => match w_action b with
                                | Reload => watcher_matches b p
                                | RunTasks _ => false
                                end) bs).

Definition runs_leaf_tasks (b : Watcher) : Prop :=
  match w_action b with
  | RunTasks names => Forall (fun n => leaf_task n = true) names
  | Reload => True
  end.

(** How deep a task's dependencies go in the registry. *)
Definition task_rank (name : string) : nat :=
  if String.eqb name "default" then 1
  else if String.eqb name "watch" then 2
  else if String.eqb name "serve" then 3
  else 0.

(** The bindings in force once the watch task has run. *)
Definition watch_bindings (local : value) : list Watcher :=
  (watch_tasks local ++ [watch_reload])%list.

Definition has_map (f : File) : Prop := sourceMap f <> None.

(** The world after [gulp.dest(dir)] has written the files [fs]. *)
Definition written (dir : string) (fs : list File) (w : World) : World :=
  {| log := log w;
     disk := fold_left (fun d f => disk_write (path_join dir (path f))
                                              (contents f) d) fs (disk w);
     ended := ended w; watchers := watchers w; reloads := reloads w;
     serving := serving w; started := started w |}.

(** The destination directories move with some override. *)
Definition outputs_follow_configuration : Prop :=
  exists task,
    In task pipelines /\ follows_override (fun local => dest_dirs (task local)).

(** The line [onError] writes. *)
Definition error_line {T : Tools} (e : Error) : string :=
  bgRed_bold "  ERROR " ++ " " ++ red_bold (message e).

(** ** What the tasks leave alone *)

(** The paths under the two output directories. *)
Definition under_public (q : string) : bool :=
  String.prefix "./public/js/" q || String.prefix "./public/css/" q.

(** From [w] to [w'] no file outside the output directories changed. *)
Definition disk_outside (w w' : World) : Prop :=
  forall q, under_public q = false ->
            Demo.disk_read q (disk w') = Demo.disk_read q (disk w).

(** [R] relates every world to the one [m] leaves, thrown or not. *)
Definition always {A : Type} (m : M A) (R : World -> World -> Prop) : Prop :=
  forall w, R w (snd (m w)).

(** A stage that writes, writes under an output directory. *)
Definition dest_public (s : Stage) : bool :=
  match s with
  | gulp_dest dir =>
      String.eqb dir "./public/js" || String.eqb dir "./public/css"
  | _ => true
  end.

End Spec.

(* ================================================================== *)
(** * Facts about values *)
(* ================================================================== *)

Module JsFacts.
Import Js Spec.

Lemma idx_of_key_of_idx (i : nat) : idx_of_key (key_of_idx i) = Some i.
Proof.
  unfold idx_of_key, key_of_idx.
  rewrite NilEmpty.usu, Unsigned.of_to, String.eqb_refl.
  reflexivity.
Qed.

Lemma idx_of_key_sound (k : string) (i : nat) :
  idx_of_key k = Some i -> k = key_of_idx i.
Proof.
  unfold idx_of_key.
  destruct (NilEmpty.uint_of_string k) as [d|]; [|discriminate].
  destruct (String.eqb_spec (key_of_idx (Nat.of_uint d)) k) as [E|]; [|discriminate].
  intros [= <-]. now symmetry.
Qed.

Lemma key_of_idx_inj (i j : nat) : key_of_idx i = key_of_idx j -> i = j.
Proof.
  intros E. pose proof (idx_of_key_of_idx i) as Hi.
  rewrite E, idx_of_key_of_idx in Hi. now injection Hi.
Qed.

Lemma idx_of_key_neq (k k' : string) (i j : nat) :
  k <> k' -> idx_of_key k = Some i -> idx_of_key k' = Some j -> i <> j.
Proof.
  intros N Hi Hj ->.
  apply idx_of_key_sound in Hi, Hj. congruence.
Qed.

(** ** Property lists *)

Lemma assoc_get_set_same k x ps : assoc_get k (assoc_set k x ps) = Some x.
Proof.
  induction ps as [|[k' y] r IH]; simpl.
  - now rewrite String.eqb_refl.
  - destruct (String.eqb_spec k k') as [->|N]; simpl.
    + now rewrite String.eqb_refl.
    + destruct (String.eqb_spec k k'); [contradiction|exact IH].
Qed.

Lemma assoc_get_set_other k k' x ps :
  k <> k' -> assoc_get k (assoc_set k' x ps) = assoc_get k ps.
Proof.
  intros N. induction ps as [|[k2 y] r IH]; simpl.
  - destruct (String.eqb_spec k k'); [contradiction|reflexivity].
  - destruct (String.eqb_spec k' k2) as [->|N2]; simpl.
    + destruct (String.eqb_spec k k2); [contradiction|reflexivity].
    + destruct (String.eqb_spec k k2); [reflexivity|exact IH].
Qed.

Lemma assoc_set_id k x ps : assoc_get k ps = Some x -> assoc_set k x ps = ps.
Proof.
  induction ps as [|[k' y] r IH]; simpl; [discriminate|].
  destruct (String.eqb_spec k k') as [->|N].
  - now intros [= ->].
  - intros H. now rewrite IH.
Qed.

Lemma assoc_get_In k x ps : assoc_get k ps = Some x -> In (k, x) ps.
Proof.
  induction ps as [|[k' y] r IH]; simpl; [discriminate|].
  destruct (String.eqb_spec k k') as [->|N].
  - intros [= ->]. now left.
  - intros H. right. now apply IH.
Qed.

Lemma assoc_get_None k ps :
  assoc_get k ps = None <-> ~ In k (map fst ps).
Proof.
  induction ps as [|[k' y] r IH]; simpl.
  - tauto.
  - destruct (String.eqb_spec k k') as [->|N].
    + split; [discriminate|]. intros H. exfalso. apply H. now left.
    + rewrite IH. split; [intros H [E|I]; [congruence|tauto]|tauto].
Qed.

(** ** Array elements *)

Lemma nth_arr_set_same i x es : nth i (arr_set i x es) VUndef = x.
Proof.
  revert es. induction i as [|i IH]; intros [|e r]; simpl; auto.
Qed.

Lemma nth_arr_set_other i j x es :
  i <> j -> nth i (arr_set j x es) VUndef = nth i es VUndef.
Proof.
  revert i es. induction j as [|j IH]; intros [|i] [|e r] N; simpl;
    try congruence; try reflexivity.
  - now destruct i.
  - rewrite IH by congruence. now destruct i.
  - now apply IH; congruence.
Qed.

Lemma length_arr_set i x es :
  List.length (arr_set i x es) = Nat.max (List.length es) (S i).
Proof.
  revert es. induction i as [|i IH]; intros [|e r]; simpl;
    try rewrite IH; simpl; lia.
Qed.

Lemma arr_set_id i x es :
  i < List.length es -> nth i es VUndef = x -> arr_set i x es = es.
Proof.
  revert es. induction i as [|i IH]; intros [|e r]; simpl; intros L E;
    try lia.
  - now subst.
  - f_equal. apply IH; [lia|exact E].
Qed.

(** ** Objects and arrays as property stores *)


Lemma holds_props_set o k x : holds_props (set o k x) = holds_props o.
Proof.
  destruct o; simpl; try reflexivity.
  now destruct (idx_of_key k).
Qed.

Lemma isArray_set o k x : isArray (set o k x) = isArray o.
Proof.
  destruct o; simpl; try reflexivity.
  now destruct (idx_of_key k).
Qed.

Lemma has_key_set_same o k x :
  holds_props o = true -> has_key (set o k x) k = true.
Proof.
  destruct o; simpl; try discriminate; intros _.
  - destruct (idx_of_key k) as [i|] eqn:E; simpl; rewrite E.
    + apply Nat.ltb_lt. rewrite length_arr_set. lia.
    + now rewrite assoc_get_set_same.
  - now rewrite assoc_get_set_same.
Qed.

Lemma get_set_same o k x :
  holds_props o = true -> get (set o k x) k = x.
Proof.
  destruct o; simpl; try discriminate; intros _.
  - destruct (idx_of_key k) as [i|] eqn:E; simpl; rewrite E.
    + apply nth_arr_set_same.
    + now rewrite assoc_get_set_same.
  - now rewrite assoc_get_set_same.
Qed.

Lemma get_set_other o k k' x :
  k <> k' -> get (set o k' x) k = get o k.
Proof.
  intros N. destruct o; simpl; try reflexivity.
  - destruct (idx_of_key k') as [j|] eqn:E'; simpl;
      destruct (idx_of_key k) as [i|] eqn:E; try reflexivity.
    + apply nth_arr_set_other. eapply idx_of_key_neq; eauto.
    + now rewrite assoc_get_set_other.
  - now rewrite assoc_get_set_other.
Qed.

Lemma has_key_set_mono o k k' x :
  has_key o k = true -> has_key (set o k' x) k = true.
Proof.
  destruct (String.eqb_spec k k') as [->|N].
  - intros H. apply has_key_set_same. now destruct o.
  - destruct o; simpl; try discriminate.
    + destruct (idx_of_key k') as [j|] eqn:E'; simpl;
        destruct (idx_of_key k) as [i|] eqn:E; try tauto.
      * rewrite !Nat.ltb_lt, length_arr_set. lia.
      * now rewrite assoc_get_set_other.
    + now rewrite assoc_get_set_other.
Qed.

Lemma set_id o k x :
  has_key o k = true -> get o k = x -> set o k x = o.
Proof.
  destruct o; simpl; try discriminate.
  - destruct (idx_of_key k) as [i|] eqn:E.
    + rewrite Nat.ltb_lt. intros L G. now rewrite arr_set_id.
    + destruct (assoc_get k props) as [y|] eqn:G; [|discriminate].
      intros _ ->. now rewrite assoc_set_id.
  - destruct (assoc_get k props) as [y|] eqn:G; [|discriminate].
    intros _ ->. now rewrite assoc_set_id.
Qed.

End JsFacts.

(* ================================================================== *)
(** * Facts about [_.merge] *)
(* ================================================================== *)

Module LodashFacts.
Import Js Lodash Spec JsFacts.

Lemma on_props_fold (ps : list (string * value)) (acc : value) :
  (fix on_props (ps : list (string * value)) (acc : value) : value :=
     match ps with
     | [] => acc
     | (k, v) :: r =>
         on_props r (assignMergeValue acc k (mergeDeepWith baseMerge (get acc k) v))
     end) ps acc
  = fold_left mergeStep ps acc.
Proof.
  revert acc. induction ps as [|[k v] r IH]; intros acc; simpl; [reflexivity|].
  now rewrite IH.
Qed.

Lemma on_elems_fold (es : list value) (i : nat) (acc : value) :
  (fix on_elems (i : nat) (es : list value) (acc : value) : value :=
     match es with
     | [] => acc
     | e :: r =>
         on_elems (S i) r
           (assignMergeValue acc (key_of_idx i)
              (mergeDeepWith baseMerge (get acc (key_of_idx i)) e))
     end) i es acc
  = fold_left mergeStep (indexed i es) acc.
Proof.
  revert i acc. induction es as [|e r IH]; intros i acc; simpl; [reflexivity|].
  now rewrite IH.
Qed.

Lemma chars_fold (l : list value) (i : nat) (acc : value) :
  Forall (fun v => isObject v = false) l ->
  fold_left (fun acc kv => assignMergeValue acc (fst kv) (snd kv))
            (indexed i l) acc
  = fold_left mergeStep (indexed i l) acc.
Proof.
  intros H. revert i acc. induction H as [|v r Hv _ IH]; intros i acc; simpl;
    [reflexivity|].
  rewrite IH. f_equal. unfold mergeStep, newValue, mergeDeepWith. simpl.
  destruct v; simpl in *; try reflexivity; discriminate.
Qed.

(** [baseMerge] is a left fold of [mergeStep] over the source's entries. *)
Lemma baseMerge_entries (object source : value) :
  baseMerge object source = fold_left mergeStep (entries source) object.
Proof.
  destruct source; simpl; try reflexivity.
  - apply chars_fold. unfold chars. apply Forall_forall.
    intros v Hv. apply in_map_iff in Hv. destruct Hv as [c [<- _]]. reflexivity.
  - rewrite fold_left_app, on_elems_fold. apply on_props_fold.
  - apply on_props_fold.
Qed.

(** ** Keys that a destination has already taken in *)


Lemma assignMergeValue_cases a k x :
  assignMergeValue a k x = a \/ assignMergeValue a k x = set a k x.
Proof.
  unfold assignMergeValue. destruct x; auto. destruct (has_key a k); auto.
Qed.

Lemma holds_props_mergeStep a kv :
  holds_props (mergeStep a kv) = holds_props a.
Proof.
  unfold mergeStep.
  destruct (assignMergeValue_cases a (fst kv) (newValue (get a (fst kv)) (snd kv)))
    as [-> | ->]; [reflexivity|apply holds_props_set].
Qed.

Lemma isArray_mergeStep a kv : isArray (mergeStep a kv) = isArray a.
Proof.
  unfold mergeStep.
  destruct (assignMergeValue_cases a (fst kv) (newValue (get a (fst kv)) (snd kv)))
    as [-> | ->]; [reflexivity|apply isArray_set].
Qed.

Lemma holds_props_fold es a :
  holds_props (fold_left mergeStep es a) = holds_props a.
Proof.
  revert a. induction es as [|kv r IH]; intros a; simpl; [reflexivity|].
  now rewrite IH, holds_props_mergeStep.
Qed.

Lemma isArray_fold es a : isArray (fold_left mergeStep es a) = isArray a.
Proof.
  revert a. induction es as [|kv r IH]; intros a; simpl; [reflexivity|].
  now rewrite IH, isArray_mergeStep.
Qed.

Lemma mergeStep_absorbed a kv : absorbed a kv -> mergeStep a kv = a.
Proof.
  intros [Hk Hv]. unfold mergeStep, assignMergeValue.
  destruct (newValue (get a (fst kv)) (snd kv)) eqn:E;
    try (destruct Hv as [Hv|Hv]; [discriminate|];
         apply set_id; [exact Hk|now symmetry]).
  now rewrite Hk.
Qed.

Lemma fold_absorbed es a :
  Forall (absorbed a) es -> fold_left mergeStep es a = a.
Proof.
  induction 1 as [|kv r Hkv _ IH]; simpl; [reflexivity|].
  now rewrite mergeStep_absorbed.
Qed.

(** Merging an entry makes it absorbed, as soon as merging its value twice
    is merging it once. *)
Lemma mergeStep_absorbs a kv :
  holds_props a = true ->
  (forall d, newValue (newValue d (snd kv)) (snd kv) = newValue d (snd kv)) ->
  absorbed (mergeStep a kv) kv.
Proof.
  intros Ha Hq. unfold absorbed, mergeStep, assignMergeValue.
  pose proof (Hq (get a (fst kv))) as Hq'.
  destruct (newValue (get a (fst kv)) (snd kv)) eqn:E.
  1: destruct (has_key a (fst kv)) eqn:Hk; [rewrite E; auto|].
  all: rewrite has_key_set_same, get_set_same by assumption; auto.
Qed.

(** Merging under another key leaves an absorbed entry absorbed. *)
Lemma absorbed_mergeStep_other a kv kv' :
  fst kv <> fst kv' -> absorbed a kv -> absorbed (mergeStep a kv') kv.
Proof.
  intros N [Hk Hv]. unfold mergeStep.
  destruct (assignMergeValue_cases a (fst kv') (newValue (get a (fst kv')) (snd kv')))
    as [-> | ->]; [now split|].
  unfold absorbed. rewrite get_set_other by assumption.
  split; [now apply has_key_set_mono|exact Hv].
Qed.

Lemma absorbed_fold_other es a kv :
  ~ In (fst kv) (map fst es) -> absorbed a kv ->
  absorbed (fold_left mergeStep es a) kv.
Proof.
  revert a. induction es as [|kv' r IH]; intros a N H; simpl; [exact H|].
  simpl in N. apply IH; [tauto|].
  apply absorbed_mergeStep_other; [|exact H]. intros E. apply N. now left.
Qed.

Lemma fold_absorbs es a :
  NoDup (map fst es) ->
  holds_props a = true ->
  Forall (fun kv => forall d,
              newValue (newValue d (snd kv)) (snd kv) = newValue d (snd kv)) es ->
  Forall (absorbed (fold_left mergeStep es a)) es.
Proof.
  revert a. induction es as [|kv r IH]; intros a ND Ha HQ; simpl;
    [constructor|].
  inversion ND as [|? ? Hnin ND']; subst. inversion HQ as [|? ? Hq HQ']; subst.
  constructor.
  - apply absorbed_fold_other; [exact Hnin|]. now apply mergeStep_absorbs.
  - apply IH; [exact ND'| |exact HQ']. now rewrite holds_props_mergeStep.
Qed.

(** ** The keys of a well-formed source are pairwise distinct *)

Lemma nodup_keys_NoDup ks : nodup_keys ks = true -> NoDup ks.
Proof.
  induction ks as [|k r IH]; simpl; [constructor|].
  rewrite andb_true_iff, negb_true_iff. intros [Hn Hr].
  constructor; [|now apply IH].
  intros Hin. apply not_true_iff_false in Hn. apply Hn.
  apply existsb_exists. exists k. split; [exact Hin|apply String.eqb_refl].
Qed.

Lemma In_indexed k i es :
  In k (map fst (indexed i es)) ->
  exists j, k = key_of_idx j /\ i <= j < i + List.length es.
Proof.
  revert i. induction es as [|e r IH]; intros i; simpl; [tauto|].
  intros [<-|H].
  - exists i. split; [reflexivity|lia].
  - destruct (IH _ H) as [j [-> Hj]]. exists j. split; [reflexivity|lia].
Qed.

Lemma indexed_NoDup i es : NoDup (map fst (indexed i es)).
Proof.
  revert i. induction es as [|e r IH]; intros i; simpl; constructor.
  - intros H. apply In_indexed in H. destruct H as [j [E Hj]].
    apply key_of_idx_inj in E. lia.
  - apply IH.
Qed.

Lemma entries_NoDup v : wf v = true -> NoDup (map fst (entries v)).
Proof.
  destruct v; simpl; try (intros _; constructor).
  - intros _. apply indexed_NoDup.
  - rewrite !andb_true_iff. intros [[[_ Hnd] Hni] _].
    rewrite map_app. apply NoDup_app.
    + apply indexed_NoDup.
    + now apply nodup_keys_NoDup.
    + intros k Hi Hp. apply In_indexed in Hi. destruct Hi as [j [-> _]].
      apply in_map_iff in Hp. destruct Hp as [[k' x] [Ek Hin]]. simpl in Ek.
      rewrite forallb_forall in Hni. specialize (Hni _ Hin). simpl in Hni.
      unfold is_index in Hni. subst k'. now rewrite idx_of_key_of_idx in Hni.
  - rewrite andb_true_iff. intros [Hnd _]. now apply nodup_keys_NoDup.
Qed.

Lemma entries_wf v : wf v = true -> Forall (fun kv => wf (snd kv) = true) (entries v).
Proof.
  destruct v; simpl; try (intros _; constructor).
  - intros _. unfold chars. generalize 0.
    induction (list_ascii_of_string s) as [|c r IH]; intros i; simpl;
      constructor; auto.
  - rewrite !andb_true_iff. intros [[[He _] _] Hp].
    apply Forall_app. split.
    + rewrite forallb_forall in He. generalize 0.
      induction elems as [|e r IH]; intros i; simpl; constructor.
      * apply He. now left.
      * apply IH. intros x Hx. apply He. now right.
    + apply Forall_forall. rewrite forallb_forall in Hp. exact Hp.
  - rewrite andb_true_iff. intros [_ Hp].
    apply Forall_forall. rewrite forallb_forall in Hp. exact Hp.
Qed.

(** ** Merging the same source twice *)


Lemma holds_props_baseMerge o v : holds_props (baseMerge o v) = holds_props o.
Proof. rewrite baseMerge_entries. apply holds_props_fold. Qed.

Lemma isArray_baseMerge o v : isArray (baseMerge o v) = isArray o.
Proof. rewrite baseMerge_entries. apply isArray_fold. Qed.

Lemma holds_props_isObject o :
  holds_props o = true -> isObject o && negb (isFunction o) = true.
Proof. now destruct o. Qed.

Lemma isObject_holds_props o :
  isObject o && negb (isFunction o) = holds_props o.
Proof. now destruct o. Qed.

Lemma isArray_holds_props o : isArray o = true -> holds_props o = true.
Proof. now destruct o. Qed.

Lemma newValue_twice v :
  merged_once v -> forall d, newValue (newValue d v) v = newValue d v.
Proof.
  intros HP d. unfold newValue, mergeDeepWith.
  destruct v as [| | | | | |es ps|[|descr] ps]; try reflexivity.
  - set (base := if isArray d then d else VArr [] []).
    assert (Hb : isArray base = true) by (subst base; now destruct (isArray d) eqn:E).
    rewrite isArray_baseMerge, Hb. apply HP. now apply isArray_holds_props.
  - rewrite !isObject_holds_props.
    set (base := if holds_props d then d else VObj Plain []).
    assert (Hb : holds_props base = true)
      by (subst base; now destruct (holds_props d) eqn:E).
    rewrite holds_props_baseMerge, Hb. now apply HP.
Qed.

Lemma merged_once_entries v :
  wf v = true ->
  Forall (fun kv => forall d,
              newValue (newValue d (snd kv)) (snd kv) = newValue d (snd kv))
         (entries v) ->
  merged_once v.
Proof.
  intros Hwf HF o Ho. rewrite !baseMerge_entries.
  apply fold_absorbed, fold_absorbs; [now apply entries_NoDup|exact Ho|exact HF].
Qed.

Lemma indexed_chars_prim s i :
  Forall (fun kv => isObject (snd kv) = false) (indexed i (chars s)).
Proof.
  unfold chars. revert i.
  induction (list_ascii_of_string s) as [|ch r IH]; intros i; simpl;
    constructor; auto.
Qed.

Lemma newValue_prim d v : isObject v = false -> newValue d v = v.
Proof. intros H. destruct v; try reflexivity; discriminate. Qed.

Lemma wf_merged_once v : wf v = true -> merged_once v.
Proof.
  induction v as [| | | | s | |es ps IHe IHp|c ps IHp] using value_nested_ind;
    intros Hwf; try (intros o _; reflexivity);
    apply merged_once_entries; try exact Hwf;
    pose proof (entries_wf _ Hwf) as Hsub; simpl in *.
  - eapply Forall_impl; [|apply indexed_chars_prim].
    intros kv Hkv d. now rewrite !newValue_prim.
  - apply Forall_app in Hsub. destruct Hsub as [Hse Hsp].
    apply Forall_app. split.
    + clear - IHe Hse. revert Hse. generalize 0.
      induction IHe as [|e r He _ IH]; intros i Hse; simpl in *; constructor;
        inversion Hse; subst; auto using newValue_twice.
    + clear - IHp Hsp. induction IHp as [|kv r Hkv _ IH]; constructor;
        inversion Hsp; subst; auto using newValue_twice.
  - clear - IHp Hsub. induction IHp as [|kv r Hkv _ IH]; constructor;
      inversion Hsub; subst; auto using newValue_twice.
Qed.

(** ** The value a merge leaves under a key of the source *)

Lemma get_absent o k : has_key o k = false -> get o k = VUndef.
Proof.
  destruct o; simpl; try reflexivity.
  - destruct (idx_of_key k) as [i|].
    + rewrite Nat.ltb_ge. intros L. now apply nth_overflow.
    + now destruct (assoc_get k props).
  - now destruct (assoc_get k props).
Qed.

Lemma get_mergeStep_other a kv k :
  k <> fst kv -> get (mergeStep a kv) k = get a k.
Proof.
  intros N. unfold mergeStep.
  destruct (assignMergeValue_cases a (fst kv) (newValue (get a (fst kv)) (snd kv)))
    as [-> | ->]; [reflexivity|now apply get_set_other].
Qed.

Lemma get_fold_other es a k :
  ~ In k (map fst es) -> get (fold_left mergeStep es a) k = get a k.
Proof.
  revert a. induction es as [|kv r IH]; intros a N; simpl; [reflexivity|].
  simpl in N. rewrite IH by tauto. apply get_mergeStep_other.
  intros E. apply N. now left.
Qed.

Lemma get_mergeStep_same a k v :
  holds_props a = true ->
  get (mergeStep a (k, v)) k
  = match newValue (get a k) v with VUndef => get a k | x => x end.
Proof.
  intros Ha. unfold mergeStep, assignMergeValue. simpl.
  destruct (newValue (get a k) v) eqn:E; try now apply get_set_same.
  destruct (has_key a k) eqn:Hk; [reflexivity|].
  rewrite get_set_same by assumption. symmetry. now apply get_absent.
Qed.

Lemma get_fold_key es a k v :
  NoDup (map fst es) -> In (k, v) es -> holds_props a = true ->
  get (fold_left mergeStep es a) k
  = match newValue (get a k) v with VUndef => get a k | x => x end.
Proof.
  revert a. induction es as [|[k' v'] r IH]; intros a ND Hin Ha; simpl;
    [destruct Hin|].
  inversion ND as [|? ? Hnin ND']; subst. simpl in Hnin.
  destruct Hin as [[= -> ->]|Hin].
  - rewrite get_fold_other by assumption. now apply get_mergeStep_same.
  - assert (N : k <> k').
    { intros ->. apply Hnin. apply in_map_iff. now exists (k', v). }
    rewrite IH; [|assumption|assumption|now rewrite holds_props_mergeStep].
    now rewrite get_mergeStep_other.
Qed.

(** ** Merging into a new object or array copies the source *)










End LodashFacts.

(* ================================================================== *)
(** * Properties of the configuration *)
(* ================================================================== *)

Module ConfigProperties.
Import Js Lodash Gulpfile Spec JsFacts LodashFacts.




(** C3: when the local override file is absent, loading does not fail: the
    [require] that throws is caught, [local] stays the empty object, merging
    it into any default mapping [D] gives [D] back, and the effective
    configuration is the default one. *)
Theorem absent_override_keeps_defaults (T : Tools) (w : World) :
  exists w',
    load_local None w = (inl (plain []), w')
    /\ disk w' = disk w
    /\ (forall D, merge D (plain []) = D)
    /\ config (plain []) = default_config.
Proof.
  unfold load_local, try_catch, bind, require_local, throw, gutil_log, ret.
  simpl. eexists. split; [reflexivity|]. simpl.
  split; [reflexivity|]. split; [|reflexivity].
  intros D. unfold merge. simpl. reflexivity.
Qed.

(** C5: merging the same override a second time changes nothing:
    [merge (merge D O) O = merge D O] for every default mapping [D] and
    every override [O] (an object lists each of its properties once). *)
Theorem merge_idempotent (D O : value) :
  holds_props D = true -> wf O = true ->
  merge (merge D O) O = merge D O.
Proof.
  intros HD HO. unfold merge.
  destruct (truthy O) eqn:Ht; [|reflexivity].
  pose proof (wf_merged_once O HO) as Honce.
  unfold merged_once in Honce. now apply Honce.
Qed.

Lemma merge_idempotent_on_defaults :
  let O := plain [ ("sourcemaps", VBool false);
                   ("supportedBrowsers", array [VStr "last 1 version"]);
                   ("browsersync", plain [("open", VBool true);
                                          ("port", VNum 3000)]) ] in
  holds_props default_config = true
  /\ wf O = true
  /\ merge (merge default_config O) O = merge default_config O.
Proof.
  split; [reflexivity|]. split; [reflexivity|].
  apply merge_idempotent; reflexivity.
Defined.




(** Under a key the override does not have, the merged configuration
    keeps the default's value. *)
Theorem merge_keeps_other_keys (D : value) (c : ocls)
        (ps : list (string * value)) (k : string) :
  has_key (VObj c ps) k = false ->
  get (merge D (VObj c ps)) k = get D k.
Proof.
  intros Hk. unfold merge. simpl truthy. cbv iota.
  rewrite baseMerge_entries. simpl entries.
  apply get_fold_other. apply assoc_get_None.
  simpl in Hk. now destruct (assoc_get k ps).
Qed.

Lemma merge_keeps_other_keys_on_defaults :
  let O := plain [("sassSource", VStr "./scss")] in
  has_key O "appSource" = false
  /\ get (merge default_config O) "appSource" = VStr "./resources/assets/app".
Proof.
  split; [reflexivity|].
  exact (@merge_keeps_other_keys default_config Plain
           [("sassSource", VStr "./scss")] "appSource" eq_refl).
Defined.

End ConfigProperties.

(* ================================================================== *)
(** * Facts about runs of the gulpfile *)
(* ================================================================== *)

Module GulpfileFacts.
Import Js Lodash Gulpfile Spec.

Section Runs.
Context {T : Tools}.

(** ** Computations that return *)

Lemma session_refl w : session 0 [] w w.
Proof.
  unfold session. rewrite Nat.add_0_r, app_nil_r. auto.
Qed.

Lemma session_trans n m a b w1 w2 w3 :
  session n a w1 w2 -> session m b w2 w3 -> session (n + m) (a ++ b) w1 w3.
Proof.
  unfold session. intros (W1 & S1 & R1 & T1) (W2 & S2 & R2 & T2).
  rewrite W2, S2, R2, T2, W1, S1, R1, T1, app_assoc. repeat split; lia.
Qed.

Lemma returns_ret {A : Type} (a : A) : returns (ret a) (session 0 []).
Proof. intros w. exists a, w. split; [reflexivity|apply session_refl]. Qed.

Lemma returns_bind {A B : Type} (m : M A) (k : A -> M B) n n' a a' :
  returns m (session n a) ->
  (forall x, returns (k x) (session n' a')) ->
  returns (bind m k) (session (n + n') (a ++ a')).
Proof.
  intros Hm Hk w. destruct (Hm w) as (x & w1 & E1 & S1).
  destruct (Hk x w1) as (y & w2 & E2 & S2).
  exists y, w2. unfold bind. rewrite E1. split; [exact E2|].
  eapply session_trans; eauto.
Qed.

Lemma returns_quiet_bind {A B : Type} (m : M A) (k : A -> M B) n a :
  returns m (session 0 []) ->
  (forall x, returns (k x) (session n a)) ->
  returns (bind m k) (session n a).
Proof.
  intros Hm Hk. exact (@returns_bind A B m k 0 n [] a Hm Hk).
Qed.

Lemma returns_forM_quiet {A : Type} (l : list A) (f : A -> M unit) :
  (forall x, returns (f x) (session 0 [])) ->
  returns (forM l f) (session 0 []).
Proof.
  intros Hf. induction l as [|x r IH]; simpl.
  - apply returns_ret.
  - apply returns_quiet_bind; [apply Hf|intros _; exact IH].
Qed.

Lemma quiet_step (f : World -> World) :
  (forall w, session 0 [] w (f w)) ->
  returns (fun w => (inl tt, f w)) (session 0 []).
Proof. intros H w. exists tt, (f w). split; [reflexivity|apply H]. Qed.

Lemma gutil_log_quiet line : returns (gutil_log line) (session 0 []).
Proof.
  apply quiet_step. intros w. unfold session. simpl.
  rewrite Nat.add_0_r, app_nil_r. auto.
Qed.

Lemma emit_end_quiet stream : returns (emit_end stream) (session 0 []).
Proof.
  apply quiet_step. intros w. unfold session. simpl.
  rewrite Nat.add_0_r, app_nil_r. auto.
Qed.

Lemma write_file_quiet p c : returns (write_file p c) (session 0 []).
Proof.
  apply quiet_step. intros w. unfold session. simpl.
  rewrite Nat.add_0_r, app_nil_r. auto.
Qed.

Lemma onError_quiet this e : returns (onError this e) (session 0 []).
Proof.
  unfold onError. apply returns_quiet_bind; [apply gutil_log_quiet|].
  intros _. apply emit_end_quiet.
Qed.

(** ** Stages *)

Lemma run_stage_infallible s f :
  infallible s = true -> exists out, run_stage s f = Ok out.
Proof. destruct s; simpl; try discriminate; eauto. Qed.

Lemma run_stage_files_infallible s fs :
  infallible s = true -> snd (run_stage_files s fs) = None.
Proof.
  intros Hs. induction fs as [|f r IH]; simpl; [reflexivity|].
  destruct (run_stage_infallible s f Hs) as [out ->].
  destruct (run_stage_files s r). exact IH.
Qed.

Lemma run_piped_quiet p fs :
  safe p = true -> returns (run_piped p fs) (session 0 []).
Proof.
  intros Hs. unfold run_piped.
  destruct (run_stage_files (stage p) fs) as [outs failure] eqn:E.
  apply returns_quiet_bind; [|intros _; apply returns_quiet_bind].
  - destruct failure as [e|]; [|apply returns_ret].
    unfold safe in Hs. destruct (handled p) eqn:Hh.
    + apply onError_quiet.
    + simpl in Hs. pose proof (run_stage_files_infallible (stage p) fs Hs) as N.
      rewrite E in N. discriminate.
  - destruct (stage p); try apply returns_ret.
    apply returns_forM_quiet. intros f. apply write_file_quiet.
  - intros _. apply returns_ret.
Qed.

Lemma run_pipes_quiet ps fs :
  forallb safe ps = true -> returns (run_pipes ps fs) (session 0 []).
Proof.
  revert fs. induction ps as [|p r IH]; intros fs Hs; simpl.
  - apply returns_ret.
  - simpl in Hs. apply andb_true_iff in Hs. destruct Hs as [Hp Hr].
    apply returns_quiet_bind; [now apply run_piped_quiet|].
    intros outs. now apply IH.
Qed.

Lemma run_head_quiet h :
  safe_head h = true -> returns (run_head h) (session 0 []).
Proof.
  intros Hh. unfold run_head.
  apply returns_quiet_bind.
  - intros w. exists (disk w), w. split; [reflexivity|apply session_refl].
  - intros d. destruct h as [glob|o on_error file]; [apply returns_ret|].
    simpl in Hh. subst on_error.
    destruct (rollup o d); [apply returns_ret|].
    apply returns_quiet_bind; [apply onError_quiet|intros _; apply returns_ret].
Qed.

Lemma run_pipeline_quiet p :
  safe_head (head p) = true -> forallb safe (pipes p) = true ->
  returns (run_pipeline p) (session 0 []).
Proof.
  intros Hh Hp. unfold run_pipeline.
  apply returns_quiet_bind; [now apply run_head_quiet|].
  intros fs. now apply run_pipes_quiet.
Qed.

Lemma bind_inl {A B : Type} (m : M A) (k : A -> M B) w b w' :
  bind m k w = (inl b, w') ->
  exists a w1, m w = (inl a, w1) /\ k a w1 = (inl b, w').
Proof.
  unfold bind. destruct (m w) as [[a|e] w1]; [|discriminate].
  intros H. now exists a, w1.
Qed.

(** What a pipeline returns is what its stages push, one stage after the
    other. *)
Lemma run_piped_outputs p fs w outs w' :
  run_piped p fs w = (inl outs, w') ->
  outs = fst (run_stage_files (stage p) fs).
Proof.
  unfold run_piped.
  destruct (run_stage_files (stage p) fs) as [o failure]. simpl.
  intros H. apply bind_inl in H. destruct H as (_ & w1 & _ & H).
  apply bind_inl in H. destruct H as (_ & w2 & _ & H).
  unfold ret in H. now injection H as <- _.
Qed.

Lemma run_pipes_outputs ps fs w outs w' :
  run_pipes ps fs w = (inl outs, w') ->
  outs = pipes_outputs (map stage ps) fs.
Proof.
  revert fs w. induction ps as [|p r IH]; intros fs w; simpl.
  - unfold ret. now intros [= <- _].
  - intros H. apply bind_inl in H. destruct H as (o & w1 & E & H).
    apply run_piped_outputs in E. subst o.
    unfold pipes_outputs. simpl. now apply IH in H.
Qed.

(** ** Source maps through the stages *)

Lemma has_map_init f : has_map (init_map f).
Proof.
  unfold has_map, init_map. destruct (sourceMap f) eqn:E; simpl; congruence.
Qed.

Lemma has_map_apply f t : has_map f -> has_map (apply_transformed f t).
Proof.
  unfold has_map, apply_transformed. simpl.
  destruct (sourceMap f); [discriminate|congruence].
Qed.

Lemma run_stage_keeps_map s f out :
  (forall dir, s <> sourcemaps_write dir) ->
  has_map f -> run_stage s f = Ok out -> Forall has_map out.
Proof.
  intros Hs Hf. destruct s; simpl.
  - intros [= <-]. now constructor.
  - intros [= <-]. constructor; [apply has_map_init|constructor].
  - now destruct (Hs dir).
  - destruct (sass o f) as [[t|]|e]; simpl; [| |discriminate].
    + intros [= <-]. constructor; [now apply has_map_apply|constructor].
    + intros [= <-]. constructor.
  - destruct (autoprefixer o f); simpl; [|discriminate].
    intros [= <-]. constructor; [now apply has_map_apply|constructor].
  - destruct (csso o f); simpl; [|discriminate].
    intros [= <-]. constructor; [now apply has_map_apply|constructor].
  - intros [= <-]. now constructor.
Qed.

Lemma run_stage_files_keep_maps s fs :
  (forall dir, s <> sourcemaps_write dir) ->
  Forall has_map fs -> Forall has_map (fst (run_stage_files s fs)).
Proof.
  intros Hs. induction 1 as [|f r Hf _ IH]; simpl; [constructor|].
  destruct (run_stage s f) as [out|e] eqn:E; [|constructor].
  destruct (run_stage_files s r) as [outs failure]. simpl in *.
  apply Forall_app. split; [|exact IH].
  eapply run_stage_keeps_map; eauto.
Qed.

Lemma run_stage_files_init fs :
  run_stage_files sourcemaps_init fs = (map init_map fs, None).
Proof.
  induction fs as [|f r IH]; simpl; [reflexivity|]. now rewrite IH.
Qed.

Lemma run_stage_files_write dir fs :
  run_stage_files (sourcemaps_write dir) fs
  = (flat_map (write_map dir) fs, None).
Proof.
  induction fs as [|f r IH]; simpl; [reflexivity|]. now rewrite IH.
Qed.

Lemma run_stage_files_dest dir fs :
  run_stage_files (gulp_dest dir) fs = (fs, None).
Proof.
  induction fs as [|f r IH]; simpl; [reflexivity|]. now rewrite IH.
Qed.

Lemma run_stage_files_buffer fs : run_stage_files buffer fs = (fs, None).
Proof.
  induction fs as [|f r IH]; simpl; [reflexivity|]. now rewrite IH.
Qed.

Lemma path_join_here dir p :
  dir = "." \/ dir = "./" -> path_join dir p = p.
Proof. intros [-> | ->]; reflexivity. Qed.

Lemma accompanied_write dir fs :
  dir = "." \/ dir = "./" ->
  Forall has_map fs -> accompanied (flat_map (write_map dir) fs).
Proof.
  intros Hdir Hfs g Hg. apply in_flat_map in Hg.
  destruct Hg as (f & Hf & Hg). rewrite Forall_forall in Hfs.
  pose proof (Hfs f Hf) as Hm. unfold has_map in Hm.
  unfold write_map in Hg. destruct (sourceMap f) as [m|] eqn:Em; [|congruence].
  assert (Hpair : In (map_file dir f m) (flat_map (write_map dir) fs)
                  /\ In (with_map_comment dir f) (flat_map (write_map dir) fs)).
  { split; apply in_flat_map; exists f; (split; [exact Hf|]);
      unfold write_map; rewrite Em; simpl; auto. }
  destruct Hpair as [Hmap Hart].
  destruct Hg as [<-|[<-|[]]]; simpl.
  - exists (with_map_comment dir f). simpl.
    rewrite (path_join_here _ Hdir), Em. repeat split; [exact Hart|discriminate].
  - rewrite Em. exists (map_file dir f m). simpl.
    now rewrite (path_join_here _ Hdir).
Qed.

Lemma emitted_outputs p w :
  emitted p w = []
  \/ exists fs, emitted p w = pipes_outputs (map stage (pipes p)) fs.
Proof.
  unfold emitted, run_pipeline.
  destruct (bind (run_head (head p)) (fun fs => run_pipes (pipes p) fs) w)
    as [[outs|e] w'] eqn:E; [|now left].
  right. apply bind_inl in E. destruct E as (fs & w1 & _ & E).
  exists fs. now apply run_pipes_outputs in E.
Qed.

(** ** One file at a time, or one stage at a time *)





(** ** Writing to the destination *)

Lemma forM_write_file dir fs w :
  forM fs (fun f => write_file (path_join dir (path f)) (contents f)) w
  = (inl tt, written dir fs w).
Proof.
  revert w. induction fs as [|f r IH]; intros w; simpl.
  - unfold ret, written. simpl. now destruct w.
  - unfold bind. simpl. rewrite IH. reflexivity.
Qed.

Lemma run_piped_pass p fs gs w :
  run_stage_files (stage p) fs = (gs, None) ->
  run_piped p fs w
  = (inl gs, match stage p with
             | gulp_dest dir => written dir gs w
             | _ => w
             end).
Proof.
  intros E. unfold run_piped. rewrite E. unfold bind, ret. simpl.
  destruct (stage p); try reflexivity.
  now rewrite forM_write_file.
Qed.

(** ** Tasks and watchers *)

Lemma returns_eq {A : Type} (m : M A) n n' a a' :
  returns m (session n a) -> n = n' -> a = a' -> returns m (session n' a').
Proof. now intros H <- <-. Qed.

Lemma task_started_session name :
  returns (task_started name) (session 0 [name]).
Proof.
  intros w. eexists tt, _. split; [reflexivity|].
  unfold session. simpl. rewrite Nat.add_0_r. auto.
Qed.

Lemma browserSync_reload_session :
  returns browserSync_reload (session 1 []).
Proof.
  intros w. eexists tt, _. split; [reflexivity|].
  unfold session. simpl. rewrite app_nil_r. repeat split; lia.
Qed.

Lemma drain_quiet p :
  safe_head (head p) = true -> forallb safe (pipes p) = true ->
  returns (drain p) (session 0 []).
Proof.
  intros Hh Hp. unfold drain.
  apply returns_quiet_bind; [now apply run_pipeline_quiet|].
  intros _. apply returns_ret.
Qed.

Lemma leaf_task_cases name :
  leaf_task name = true -> name = "app" \/ name = "vendors" \/ name = "sass".
Proof.
  unfold leaf_task. rewrite !orb_true_iff, !String.eqb_eq. tauto.
Qed.

Lemma task_body_leaf_quiet local name :
  leaf_task name = true -> returns (task_body local name) (session 0 []).
Proof.
  intros H. apply leaf_task_cases in H.
  destruct H as [-> | [-> | ->]]; apply drain_quiet; reflexivity.
Qed.

Lemma start_at_leaf local d name :
  leaf_task name = true -> returns (start_at local d name) (session 0 [name]).
Proof.
  intros H. pose proof (task_body_leaf_quiet local name H) as Hb.
  assert (Hd : task_deps name = []).
  { apply leaf_task_cases in H. destruct H as [-> | [-> | ->]]; reflexivity. }
  assert (Ha : returns (task_action local name) (session 0 [name])).
  { unfold task_action.
    eapply returns_eq;
      [eapply returns_bind; [apply task_started_session|intros _; exact Hb]
      |reflexivity|reflexivity]. }
  destruct d as [|d]; simpl; [exact Ha|].
  rewrite Hd. simpl forM.
  apply returns_quiet_bind; [apply returns_ret|]. intros _. exact Ha.
Qed.

Lemma forM_start_at local d names :
  Forall (fun n => leaf_task n = true) names ->
  returns (forM names (start_at local d)) (session 0 names).
Proof.
  induction 1 as [|n r Hn _ IH]; simpl.
  - apply returns_ret.
  - eapply returns_eq;
      [eapply returns_bind; [now apply start_at_leaf|intros _; exact IH]
      |reflexivity|reflexivity].
Qed.

Lemma start_at_default local d :
  returns (start_at local (S d) "default")
          (session 0 ["app"; "vendors"; "sass"; "default"]).
Proof.
  simpl start_at.
  eapply returns_eq;
    [eapply returns_bind;
     [apply (forM_start_at local d (names:=["app"; "vendors"; "sass"]));
      repeat constructor
     |intros _; unfold task_action;
      eapply returns_bind; [apply task_started_session|intros _; apply returns_ret]]
    |reflexivity|reflexivity].
Qed.

(** The registry is no deeper than [start] looks: a greater depth starts
    the same tasks. *)
Lemma task_deps_rank name dep :
  In dep (task_deps name) -> task_rank dep < task_rank name.
Proof.
  unfold task_deps, task_rank.
  destruct (String.eqb_spec name "default") as [->|_].
  { intros [<- | [<- | [<- | []]]]; simpl; lia. }
  destruct (String.eqb_spec name "watch") as [->|_].
  { intros [<- | []]; simpl; lia. }
  destruct (String.eqb_spec name "serve") as [->|_].
  { intros [<- | []]; simpl; lia. }
  intros [].
Qed.

Lemma forM_ext {A : Type} (l : list A) (f g : A -> M unit) :
  (forall x, In x l -> forall w, f x w = g x w) ->
  forall w, forM l f w = forM l g w.
Proof.
  induction l as [|x r IH]; intros H w; simpl; [reflexivity|].
  unfold bind. rewrite (H x (or_introl eq_refl)).
  destruct (g x w) as [[[]|e] w1]; [|reflexivity].
  apply IH. intros y Hy. apply H. now right.
Qed.

Lemma start_at_deeper local n :
  forall name, task_rank name <= n ->
  forall d w, start_at local (n + d) name w = start_at local n name w.
Proof.
  induction n as [|n IH]; intros name Hr d w.
  - assert (Hd : task_deps name = []).
    { destruct (task_deps name) as [|dep r] eqn:E; [reflexivity|].
      assert (Hin : In dep (task_deps name)) by (rewrite E; now left).
      apply task_deps_rank in Hin. lia. }
    destruct d as [|d]; simpl; [reflexivity|]. now rewrite Hd.
  - simpl. unfold bind.
    rewrite (forM_ext (task_deps name) (start_at local (n + d))
                      (start_at local n)); [reflexivity|].
    intros dep Hdep w0. apply IH. apply task_deps_rank in Hdep. lia.
Qed.

Lemma start_depth_enough local name d w :
  start_at local (3 + d) name w = start local name w.
Proof.
  apply start_at_deeper. unfold task_rank.
  repeat (destruct (String.eqb _ _); try lia).
Qed.

(** Started where nothing is watched yet, the watch task runs [default]
    and leaves its four bindings in force. *)
Lemma watch_installs_bindings local w :
  watchers w = [] ->
  exists w',
    start local "watch" w = (inl tt, w')
    /\ watchers w' = watch_bindings local.
Proof.
  intros Hw. unfold start. simpl start_at.
  destruct (start_at_default local 1 w) as ([] & w1 & E & S).
  simpl start_at in E.
  unfold bind at 1. unfold bind at 1. rewrite E.
  destruct S as (W & _ & _ & _). rewrite Hw in W.
  eexists. split; [reflexivity|]. simpl. now rewrite W.
Qed.

Lemma fire_effect local b :
  runs_leaf_tasks b ->
  returns (fire local b)
          (session (match w_action b with Reload => 1 | RunTasks _ => 0 end)
                   (match w_action b with
                    | RunTasks names => names
                    | Reload => []
                    end)).
Proof.
  unfold runs_leaf_tasks, fire. destruct (w_action b) as [names|].
  - apply forM_start_at.
  - intros _. apply browserSync_reload_session.
Qed.

Lemma forM_fire local bs p :
  Forall runs_leaf_tasks bs ->
  returns (forM (filter (fun b => watcher_matches b p) bs) (fire local))
          (session (reload_count bs p) (tasks_started bs p)).
Proof.
  induction 1 as [|b r Hb _ IH]; [apply returns_ret|].
  pose proof (fire_effect local b Hb) as Hf.
  unfold reload_count, tasks_started in *. cbn [filter flat_map].
  destruct (w_action b) as [names|] eqn:Ea;
    destruct (watcher_matches b p) eqn:Em; cbn [forM];
    try exact IH.
  - eapply returns_eq;
      [eapply returns_bind; [exact Hf|intros _; exact IH]
      |reflexivity|reflexivity].
  - eapply returns_eq;
      [eapply returns_bind; [exact Hf|intros _; exact IH]
      |reflexivity|reflexivity].
Qed.

Lemma on_change_effect local p w :
  Forall runs_leaf_tasks (watchers w) ->
  exists w',
    on_change local p w = (inl tt, w')
    /\ session (reload_count (watchers w) p)
               (tasks_started (watchers w) p) w w'.
Proof.
  intros H. destruct (forM_fire local p H w) as ([] & w' & E & S).
  exists w'. split; [exact E|exact S].
Qed.

Lemma watch_bindings_leaf local :
  Forall runs_leaf_tasks (watch_bindings local).
Proof.
  unfold watch_bindings, watch_tasks, watch_reload, runs_leaf_tasks.
  repeat constructor.
Qed.

End Runs.
End GulpfileFacts.

(* ================================================================== *)
(** * Properties of the pipelines *)
(* ================================================================== *)

Module PipelineProperties.
Import Js Lodash Gulpfile Demo Spec JsFacts LodashFacts GulpfileFacts.



Lemma accompanied_outputs (T : Tools) (ss : list Stage) (dir dest : string)
      (fs : list File) :
  dir = "." \/ dir = "./" ->
  Forall (fun s => forall d, s <> sourcemaps_write d) ss ->
  Forall has_map fs ->
  accompanied
    (pipes_outputs (ss ++ [sourcemaps_write dir; gulp_dest dest]) fs).
Proof.
  intros Hdir Hss Hfs. unfold pipes_outputs. rewrite fold_left_app. simpl.
  rewrite run_stage_files_write. simpl. rewrite run_stage_files_dest. simpl.
  apply accompanied_write; [exact Hdir|].
  revert fs Hfs. induction Hss as [|s r Hs _ IH]; intros fs Hfs; simpl;
    [exact Hfs|].
  apply IH. now apply run_stage_files_keep_maps.
Qed.

(** C1 as the specification states it fails: with [sourcemaps: false] in
    the local override the sass pipeline still writes [app.css.map]. *)
Lemma map_written_with_sourcemaps_disabled : ~ map_iff_enabled.
Proof.
  intros H.
  specialize (H demo_tools (plain [("sourcemaps", VBool false)]) sass_task
                (fresh demo_disk)).
  assert (Hin : In sass_task pipelines) by (right; right; left; reflexivity).
  specialize (H Hin). vm_compute in H. discriminate H.
Qed.

(** C1, amended: for every override, whatever its [sourcemaps] option
    says, each of the three pipelines emits every artifact together with
    its [.map] file.  The option only becomes the bundler's [sourceMap]
    setting in app and vendors; the sass pipeline is the same for any two
    overrides that agree on [sassSource] and [supportedBrowsers]. *)
Theorem every_artifact_has_its_map (T : Tools) (local : value)
        (task : value -> Pipeline) (w : World) :
  In task pipelines ->
  accompanied (emitted (task local) w)
  /\ rollup_sourceMap (app_rollupOptions local) = get (config local) "sourcemaps"
  /\ rollup_sourceMap (vendors_rollupOptions local)
     = get (config local) "sourcemaps"
  /\ (forall local',
         get (config local') "sassSource" = get (config local) "sassSource" ->
         get (config local') "supportedBrowsers"
         = get (config local) "supportedBrowsers" ->
         sass_task local' = sass_task local).
Proof.
  intros Hin. split; [|split; [reflexivity|split; [reflexivity|]]].
  - destruct (emitted_outputs (task local) w) as [-> | [fs ->]];
      [intros f []|].
    assert (Hinit : Forall has_map (map init_map fs)).
    { apply Forall_forall. intros f Hf. apply in_map_iff in Hf.
      destruct Hf as (g & <- & _). apply has_map_init. }
    destruct Hin as [<- | [<- | [<- | []]]].
    + change (pipes_outputs (map stage (pipes (app local))) fs)
        with (pipes_outputs
                ([] ++ [sourcemaps_write "."; gulp_dest "./public/js"])
                (fst (run_stage_files sourcemaps_init
                        (fst (run_stage_files buffer fs))))).
      rewrite run_stage_files_buffer, run_stage_files_init.
      apply accompanied_outputs; [now left|constructor|exact Hinit].
    + change (pipes_outputs (map stage (pipes (vendors local))) fs)
        with (pipes_outputs
                ([] ++ [sourcemaps_write "."; gulp_dest "./public/js"])
                (fst (run_stage_files sourcemaps_init
                        (fst (run_stage_files buffer fs))))).
      rewrite run_stage_files_buffer, run_stage_files_init.
      apply accompanied_outputs; [now left|constructor|exact Hinit].
    + change (pipes_outputs (map stage (pipes (sass_task local))) fs)
        with (pipes_outputs
                ([sass_stage sassOptions;
                  autoprefixer_stage (autoprefixerOptions local);
                  csso_stage cssoOptions]
                   ++ [sourcemaps_write "./"; gulp_dest "./public/css"])
                (fst (run_stage_files sourcemaps_init fs))).
      rewrite run_stage_files_init.
      apply accompanied_outputs; [now right| |exact Hinit].
      repeat constructor; discriminate.
  - intros local' Hs Hb. unfold sass_task, autoprefixerOptions.
    now rewrite Hs, Hb.
Qed.

Lemma every_artifact_has_its_map_demo :
  let local := plain [("sourcemaps", VBool false)] in
  In sass_task pipelines
  /\ accompanied (emitted (sass_task local) (fresh demo_disk))
  /\ map_emitted (sass_task local) (fresh demo_disk) = true
  /\ sourcemaps_enabled local = false.
Proof.
  assert (Hin : In sass_task pipelines) by (right; right; left; reflexivity).
  split; [exact Hin|]. split; [|split; reflexivity].
  exact (proj1 (@every_artifact_has_its_map demo_tools
                  (plain [("sourcemaps", VBool false)]) sass_task
                  (fresh demo_disk) Hin)).
Defined.

(** C2 as stated fails for the outputs: no override moves the destination
    directory of any of the three pipelines; they are the literals
    [./public/js], [./public/js] and [./public/css]. *)
Lemma destinations_ignore_configuration : ~ outputs_follow_configuration.
Proof.
  intros (task & Hin & local & Hneq).
  destruct Hin as [<- | [<- | [<- | []]]]; apply Hneq; reflexivity.
Qed.

(** C2, amended: for every override the three pipelines read from paths
    built from the merged configuration ([appSource], [jsSource],
    [sassSource]), so an override of these moves the inputs; the
    destination directories are fixed: [./public/js] for app and vendors,
    [./public/css] for sass. *)
Theorem inputs_follow_configuration_outputs_fixed (local : value) :
  (input_of (app local) = add_str (get (config local) "appSource") "/app.js"
   /\ input_of (vendors local)
      = add_str (get (config local) "jsSource") "/vendors.js"
   /\ input_of (sass_task local)
      = add_str (get (config local) "sassSource") "/**/*.scss")
  /\ (forall dir,
         input_of (app (plain [("appSource", VStr dir)])) = (dir ++ "/app.js")%string
         /\ input_of (vendors (plain [("jsSource", VStr dir)]))
            = (dir ++ "/vendors.js")%string
         /\ input_of (sass_task (plain [("sassSource", VStr dir)]))
            = (dir ++ "/**/*.scss")%string)
  /\ (dest_dirs (app local) = ["./public/js"]
      /\ dest_dirs (vendors local) = ["./public/js"]
      /\ dest_dirs (sass_task local) = ["./public/css"]).
Proof.
  split; [repeat split|]. split; [|repeat split].
  intros dir. unfold input_of, app, vendors, sass_task. simpl head.
  unfold app_rollupOptions, vendors_rollupOptions. simpl entry.
  unfold config, merge. simpl truthy. cbv iota.
  repeat split; reflexivity.
Qed.





(** C8: the watch task's body adds its bindings to those in force.  With
    them in force, a change of [p] starts exactly the tasks of the bindings
    one of whose globs matches [p], in the order of the bindings: [sass]
    when the style glob matches, [app] when the script glob or the template
    glob of the application matches, [vendors] when the vendors glob
    matches, and nothing else; a path that only the style glob matches
    starts [sass] alone. *)
Theorem change_starts_matching_tasks (T : Tools) (local : value)
        (p : string) (w : World) :
  let sassSource := get (config local) "sassSource" in
  let appSource := get (config local) "appSource" in
  let jsSource := get (config local) "jsSource" in
  watchers w = watch_bindings local ->
  (forall w0, exists w1,
        watch local w0 = (inl tt, w1)
        /\ watchers w1 = (watchers w0 ++ watch_bindings local)%list
        /\ started w1 = started w0)
  /\ started (snd (on_change local p w))
     = (started w ++ tasks_started (watch_bindings local) p)%list
  /\ tasks_started (watch_bindings local) p
     = ((if minimatch (add_str sassSource "/**/*.scss") p
         then ["sass"] else [])
        ++ (if minimatch (add_str appSource "/**/*.js") p
               || minimatch (add_str appSource "/**/*.html") p
            then ["app"] else [])
        ++ (if minimatch (add_str jsSource "/**/*.js") p
            then ["vendors"] else []))%list
  /\ (minimatch (add_str sassSource "/**/*.scss") p = true ->
      minimatch (add_str appSource "/**/*.js") p = false ->
      minimatch (add_str appSource "/**/*.html") p = false ->
      minimatch (add_str jsSource "/**/*.js") p = false ->
      tasks_started (watch_bindings local) p = ["sass"]).
Proof.
  intros sassSource appSource jsSource Hw.
  assert (Hshape :
            tasks_started (watch_bindings local) p
            = ((if minimatch (add_str sassSource "/**/*.scss") p
                then ["sass"] else [])
               ++ (if minimatch (add_str appSource "/**/*.js") p
                      || minimatch (add_str appSource "/**/*.html") p
                   then ["app"] else [])
               ++ (if minimatch (add_str jsSource "/**/*.js") p
                   then ["vendors"] else []))%list).
  { unfold tasks_started, watch_bindings, watch_tasks, watcher_matches.
    simpl. fold sassSource appSource jsSource.
    rewrite !orb_false_r, !app_nil_r. reflexivity. }
  split; [|split; [|split]].
  - intros w0. eexists. split; [reflexivity|]. simpl.
    split; [|reflexivity].
    unfold watch_bindings, watch_tasks. simpl.
    now rewrite <- !app_assoc.
  - pose proof (watch_bindings_leaf local) as Hleaf. rewrite <- Hw in Hleaf.
    destruct (on_change_effect local p w Hleaf) as (w' & E & S).
    rewrite Hw in S. destruct S as (_ & _ & _ & St).
    now rewrite E.
  - exact Hshape.
  - intros Hs Ha Hh Hv. rewrite Hshape, Hs, Ha, Hh, Hv. reflexivity.
Qed.

Lemma change_starts_matching_tasks_demo :
  let p := "./resources/assets/sass/partials/_grid.scss" in
  let w := snd (watch (plain []) (fresh demo_disk)) in
  watchers w = watch_bindings (plain [])
  /\ tasks_started (watch_bindings (plain [])) p = ["sass"]
  /\ started (snd (on_change (plain []) p w))
     = (started w ++ tasks_started (watch_bindings (plain [])) p)%list.
Proof.
  assert (Hw : watchers (snd (watch (plain []) (fresh demo_disk)))
               = watch_bindings (plain [])) by (vm_compute; reflexivity).
  split; [exact Hw|]. split; [vm_compute; reflexivity|].
  exact (proj1 (proj2 (@change_starts_matching_tasks demo_tools (plain [])
                         "./resources/assets/sass/partials/_grid.scss" _ Hw))).
Defined.

(** C10: the reload binding watches the three literal paths, whatever the
    configuration, and it is the only binding that reloads.  A literal
    pattern matches the path it spells and no other; so a change of any
    other path, emitted or not, signals no reload. *)
Theorem reload_watches_three_outputs (T : Tools) (local : value)
        (p : string) (w : World) :
  watchers w = watch_bindings local ->
  (forall g, In g (w_globs watch_reload) -> minimatch g p = true -> g = p) ->
  w_globs watch_reload
  = ["./public/js/app.js"; "./public/js/vendors.js"; "./public/css/app.css"]
  /\ (forall b, In b (watch_bindings local) -> w_action b = Reload ->
                b = watch_reload)
  /\ reload_signalled (watch_bindings local) p
     = existsb (fun g => minimatch g p) (w_globs watch_reload)
  /\ (~ In p (w_globs watch_reload) ->
      exists w', on_change local p w = (inl tt, w') /\ reloads w' = reloads w).
Proof.
  intros Hw Hlit. split; [reflexivity|]. split; [|split].
  - intros b Hb Ha. unfold watch_bindings, watch_tasks in Hb. simpl in Hb.
    destruct Hb as [<- | [<- | [<- | [<- | []]]]]; try discriminate Ha.
    reflexivity.
  - unfold reload_signalled, watch_bindings, watch_tasks, watcher_matches.
    simpl. now rewrite orb_false_r.
  - intros Hp.
    assert (Hno : existsb (fun g => minimatch g p) (w_globs watch_reload) = false).
    { apply not_true_iff_false. intros Hex. apply existsb_exists in Hex.
      destruct Hex as (g & Hg & Hm). apply Hp. now rewrite <- (Hlit g Hg Hm). }
    pose proof (watch_bindings_leaf local) as Hleaf. rewrite <- Hw in Hleaf.
    destruct (on_change_effect local p w Hleaf) as (w' & E & S).
    exists w'. split; [exact E|].
    destruct S as (_ & _ & R & _). rewrite R, Hw.
    unfold reload_count, watch_bindings, watch_tasks. simpl.
    unfold watcher_matches at 1. simpl w_globs.
    simpl w_globs in Hno. rewrite Hno. simpl. lia.
Qed.

Lemma reload_watches_three_outputs_demo :
  let p := "./public/css/print.css" in
  let w := snd (start (plain []) "watch" (fresh demo_disk)) in
  watchers w = watch_bindings (plain [])
  /\ (forall g, In g (w_globs watch_reload) -> minimatch g p = true -> g = p)
  /\ ~ In p (w_globs watch_reload)
  /\ reload_signalled (watch_bindings (plain [])) p = false
  /\ exists w', on_change (plain []) p w = (inl tt, w') /\ reloads w' = reloads w.
Proof.
  assert (Hw : watchers (snd (start (plain []) "watch" (fresh demo_disk)))
               = watch_bindings (plain [])) by (vm_compute; reflexivity).
  assert (Hlit : forall g, In g (w_globs watch_reload) ->
                           minimatch g "./public/css/print.css" = true ->
                           g = "./public/css/print.css").
  { intros g [<- | [<- | [<- | []]]] H; vm_compute in H; discriminate H. }
  assert (Hp : ~ In "./public/css/print.css" (w_globs watch_reload)).
  { intros [H | [H | [H | []]]]; discriminate H. }
  split; [exact Hw|]. split; [exact Hlit|]. split; [exact Hp|].
  split; [vm_compute; reflexivity|].
  exact (proj2 (proj2 (proj2 (@reload_watches_three_outputs demo_tools (plain [])
                  "./public/css/print.css" _ Hw Hlit))) Hp).
Defined.

End PipelineProperties.

(* ================================================================== *)
(** * Further properties of the configuration *)
(* ================================================================== *)

Module ConfigurationMore.
Import Js Lodash Gulpfile Spec JsFacts LodashFacts.

(** ** Keys are never lost *)

Lemma has_key_mergeStep a kv k :
  has_key a k = true -> has_key (mergeStep a kv) k = true.
Proof.
  intros H. unfold mergeStep.
  destruct (assignMergeValue_cases a (fst kv) (newValue (get a (fst kv)) (snd kv)))
    as [-> | ->]; [exact H|now apply has_key_set_mono].
Qed.

Lemma has_key_fold es a k :
  has_key a k = true -> has_key (fold_left mergeStep es a) k = true.
Proof.
  revert a. induction es as [|kv r IH]; intros a H; simpl; [exact H|].
  apply IH. now apply has_key_mergeStep.
Qed.

(** No override removes an option: a key of the defaults is a key of the
    merged configuration, whatever the override is. *)
Theorem merge_never_removes_keys (D O : value) (k : string) :
  has_key D k = true -> has_key (merge D O) k = true.
Proof.
  intros H. unfold merge. destruct (truthy O); [|exact H].
  rewrite baseMerge_entries. now apply has_key_fold.
Qed.

Lemma merge_never_removes_keys_on_defaults :
  let O := plain [ ("sourcemaps", VUndef); ("browsersync", VNull);
                   ("supportedBrowsers", array []) ] in
  has_key default_config "supportedBrowsers" = true
  /\ has_key (merge default_config O) "supportedBrowsers" = true.
Proof.
  split; [reflexivity|].
  exact (@merge_never_removes_keys default_config _ "supportedBrowsers" eq_refl).
Defined.

(** ** Well-formed values stay well-formed *)

Lemma NoDup_nodup_keys ks : NoDup ks -> nodup_keys ks = true.
Proof.
  induction 1 as [|k r Hn _ IH]; simpl; [reflexivity|].
  rewrite IH, andb_true_r. apply negb_true_iff, not_true_iff_false.
  intros H. apply existsb_exists in H. destruct H as (x & Hx & E).
  apply String.eqb_eq in E. now subst x.
Qed.

Lemma In_keys_assoc_set a k x ps :
  In a (map fst (assoc_set k x ps)) <-> In a (map fst ps) \/ a = k.
Proof.
  induction ps as [|[k' y] r IH]; simpl.
  - intuition.
  - destruct (String.eqb_spec k k') as [->|N]; simpl.
    + intuition.
    + rewrite IH. intuition.
Qed.

Lemma NoDup_assoc_set k x ps :
  NoDup (map fst ps) -> NoDup (map fst (assoc_set k x ps)).
Proof.
  induction ps as [|[k' y] r IH]; simpl; intros ND.
  - repeat constructor. intros [].
  - inversion ND as [|? ? Hn ND']; subst.
    destruct (String.eqb_spec k k') as [->|N]; simpl.
    + now constructor.
    + constructor; [|now apply IH].
      rewrite In_keys_assoc_set. intros [H| ->]; [now apply Hn|now apply N].
Qed.

Lemma forallb_assoc_set (f : string * value -> bool) k x ps :
  f (k, x) = true -> forallb f ps = true ->
  forallb f (assoc_set k x ps) = true.
Proof.
  intros Hk. induction ps as [|[k' y] r IH]; simpl.
  - now rewrite Hk.
  - rewrite andb_true_iff. intros [Hy Hr].
    destruct (String.eqb_spec k k') as [->|N]; simpl.
    + now rewrite Hk, Hr.
    + now rewrite Hy, IH.
Qed.

Lemma forallb_arr_set i x es :
  wf x = true -> forallb wf es = true -> forallb wf (arr_set i x es) = true.
Proof.
  intros Hx. revert es. induction i as [|i IH]; intros [|e r]; simpl.
  - now rewrite Hx.
  - rewrite !andb_true_iff. intros [_ Hr]. now rewrite Hx.
  - intros _. now apply (IH []).
  - rewrite !andb_true_iff. intros [He Hr]. split; [exact He|now apply IH].
Qed.

Lemma wf_get o k : wf o = true -> wf (get o k) = true.
Proof.
  destruct o; simpl; try reflexivity.
  - rewrite !andb_true_iff. intros [[[He _] _] Hp].
    destruct (idx_of_key k) as [i|].
    + rewrite forallb_forall in He. destruct (Nat.lt_ge_cases i (List.length elems)).
      * apply He. now apply nth_In.
      * now rewrite nth_overflow.
    + destruct (assoc_get k props) as [x|] eqn:E; [|reflexivity].
      rewrite forallb_forall in Hp. exact (Hp _ (assoc_get_In _ _ E)).
  - rewrite andb_true_iff. intros [_ Hp].
    destruct (assoc_get k props) as [x|] eqn:E; [|reflexivity].
    rewrite forallb_forall in Hp. exact (Hp _ (assoc_get_In _ _ E)).
Qed.

Lemma wf_set o k x : wf o = true -> wf x = true -> wf (set o k x) = true.
Proof.
  destruct o; simpl; try (intros; assumption).
  - rewrite !andb_true_iff. intros [[[He Hnd] Hni] Hp] Hx.
    destruct (idx_of_key k) as [i|] eqn:Ek; simpl; rewrite !andb_true_iff.
    + repeat split; try assumption. now apply forallb_arr_set.
    + repeat split; try assumption.
      * apply NoDup_nodup_keys, NoDup_assoc_set. now apply nodup_keys_NoDup.
      * apply forallb_assoc_set; [|exact Hni]. simpl. unfold is_index.
        now rewrite Ek.
      * now apply forallb_assoc_set.
  - rewrite !andb_true_iff. intros [Hnd Hp] Hx. split.
    + apply NoDup_nodup_keys, NoDup_assoc_set. now apply nodup_keys_NoDup.
    + now apply forallb_assoc_set.
Qed.

Lemma wf_fold es a :
  Forall (fun kv => forall d, wf d = true ->
                              wf (newValue d (snd kv)) = true) es ->
  wf a = true -> wf (fold_left mergeStep es a) = true.
Proof.
  intros H. revert a. induction H as [|kv r Hkv _ IH]; intros a Ha; simpl;
    [exact Ha|].
  apply IH. unfold mergeStep.
  destruct (assignMergeValue_cases a (fst kv) (newValue (get a (fst kv)) (snd kv)))
    as [-> | ->]; [exact Ha|].
  apply wf_set; [exact Ha|]. apply Hkv. now apply wf_get.
Qed.

Lemma wf_newValue_of v :
  wf v = true ->
  (forall o, wf o = true -> wf (baseMerge o v) = true) ->
  forall d, wf d = true -> wf (newValue d v) = true.
Proof.
  intros Hv Hm d Hd. unfold newValue, mergeDeepWith.
  destruct v as [| | | | | |es ps|[|descr] ps]; try exact Hv.
  - apply Hm. now destruct (isArray d).
  - apply Hm. now destruct (isObject d && negb (isFunction d)).
Qed.

Lemma wf_baseMerge v :
  wf v = true -> forall o, wf o = true -> wf (baseMerge o v) = true.
Proof.
  induction v as [| | | | s | |es ps IHe IHp|c ps IHp] using value_nested_ind;
    intros Hv o Ho; try exact Ho;
    rewrite baseMerge_entries; apply wf_fold; try exact Ho;
    pose proof (entries_wf _ Hv) as Hsub; simpl in *.
  - eapply Forall_impl; [|apply indexed_chars_prim].
    intros kv Hkv d _. rewrite newValue_prim by exact Hkv.
    simpl in Hkv. destruct (snd kv); try reflexivity; discriminate Hkv.
  - apply Forall_app in Hsub. destruct Hsub as [Hse Hsp].
    apply Forall_app. split.
    + clear - IHe Hse. revert Hse. generalize 0.
      induction IHe as [|e r He _ IH]; intros i Hse; simpl in *; constructor;
        inversion Hse; subst; auto using wf_newValue_of.
    + clear - IHp Hsp. induction IHp as [|kv r Hkv _ IH]; constructor;
        inversion Hsp; subst; auto using wf_newValue_of.
  - clear - IHp Hsub. induction IHp as [|kv r Hkv _ IH]; constructor;
      inversion Hsub; subst; auto using wf_newValue_of.
Qed.

(** Merging keeps objects well formed: when the defaults and the override
    list each property once (and no array lists an element among its named
    properties), so does the merged configuration, at every depth. *)
Theorem merge_keeps_wf (D O : value) :
  wf D = true -> wf O = true -> wf (merge D O) = true.
Proof.
  intros HD HO. unfold merge. destruct (truthy O); [|exact HD].
  now apply wf_baseMerge.
Qed.

Lemma merge_keeps_wf_on_defaults :
  let O := plain [ ("supportedBrowsers", plain [("5", VStr "last 1 version")]);
                   ("browsersync", plain [("open", VBool true)]);
                   ("extra", array [VNum 1]) ] in
  wf default_config = true /\ wf O = true
  /\ wf (merge default_config O) = true.
Proof.
  split; [reflexivity|]. split; [reflexivity|].
  apply merge_keeps_wf; reflexivity.
Defined.

(** ** Overrides of single options *)

Lemma get_obj_has_key c ps k :
  get (VObj c ps) k <> VUndef -> has_key (VObj c ps) k = true.
Proof.
  simpl. destruct (assoc_get k ps); [reflexivity|]. intros H. now destruct H.
Qed.

Lemma obj_In c ps k :
  has_key (VObj c ps) k = true -> In (k, get (VObj c ps) k) ps.
Proof.
  simpl. destruct (assoc_get k ps) as [x|] eqn:E; [|discriminate].
  intros _. now apply assoc_get_In.
Qed.

Lemma get_merge_obj D c ps k :
  holds_props D = true -> wf (VObj c ps) = true ->
  has_key (VObj c ps) k = true ->
  get (merge D (VObj c ps)) k
  = match newValue (get D k) (get (VObj c ps) k) with
    | VUndef => get D k
    | x => x
    end.
Proof.
  intros HD Hwf Hk. unfold merge. simpl truthy. cbv iota.
  rewrite baseMerge_entries. simpl entries.
  apply get_fold_key; [apply (entries_NoDup _ Hwf)|now apply obj_In|exact HD].
Qed.

Lemma get_merge_scalar D c ps k s :
  holds_props D = true -> wf (VObj c ps) = true ->
  get (VObj c ps) k = s -> s <> VUndef -> isObject s = false ->
  get (merge D (VObj c ps)) k = s.
Proof.
  intros HD Hwf Hg Hu Hs.
  rewrite get_merge_obj; [|exact HD|exact Hwf|].
  - rewrite Hg, newValue_prim by exact Hs. destruct s; congruence.
  - apply get_obj_has_key. now rewrite Hg.
Qed.

(** Whatever else a local override contains, a source directory it gives
    as a string is the directory the task reads from and the watcher
    watches: [appSource] for the app entry and the app globs, [jsSource] for
    the vendors entry and glob, [sassSource] for the stylesheets. *)
Theorem source_dirs_follow_any_override (c : ocls)
        (ps : list (string * value)) :
  wf (VObj c ps) = true ->
  (forall dir,
      get (VObj c ps) "appSource" = VStr dir ->
      input_of (app (VObj c ps)) = (dir ++ "/app.js")%string
      /\ In {| w_globs := [(dir ++ "/**/*.js")%string;
                           (dir ++ "/**/*.html")%string];
               w_action := RunTasks ["app"] |}
            (watch_tasks (VObj c ps)))
  /\ (forall dir,
         get (VObj c ps) "jsSource" = VStr dir ->
         input_of (vendors (VObj c ps)) = (dir ++ "/vendors.js")%string
         /\ In {| w_globs := [(dir ++ "/**/*.js")%string];
                  w_action := RunTasks ["vendors"] |}
               (watch_tasks (VObj c ps)))
  /\ (forall dir,
         get (VObj c ps) "sassSource" = VStr dir ->
         input_of (sass_task (VObj c ps)) = (dir ++ "/**/*.scss")%string
         /\ In {| w_globs := [(dir ++ "/**/*.scss")%string];
                  w_action := RunTasks ["sass"] |}
               (watch_tasks (VObj c ps))).
Proof.
  intros Hwf.
  assert (Hget : forall k dir,
             get (VObj c ps) k = VStr dir ->
             get (config (VObj c ps)) k = VStr dir).
  { intros k dir Hk. unfold config.
    apply get_merge_scalar; try assumption; try reflexivity. discriminate. }
  split; [|split]; intros dir Hd;
    unfold input_of, app, vendors, sass_task, watch_tasks,
      app_rollupOptions, vendors_rollupOptions; simpl head; simpl entry;
    rewrite !(Hget _ _ Hd).
  - split; [reflexivity|]. right; left. reflexivity.
  - split; [reflexivity|]. right; right; left. reflexivity.
  - split; [reflexivity|]. left. reflexivity.
Qed.

Lemma source_dirs_follow_any_override_example :
  let ps := [ ("sourcemaps", VBool false);
              ("sassSource", VStr "./scss");
              ("browsersync", plain [("open", VBool true)]) ] in
  wf (VObj Plain ps) = true
  /\ get (VObj Plain ps) "sassSource" = VStr "./scss"
  /\ input_of (sass_task (VObj Plain ps)) = "./scss/**/*.scss".
Proof.
  split; [reflexivity|]. split; [reflexivity|].
  exact (proj1 (proj2 (proj2 (@source_dirs_follow_any_override Plain
           [ ("sourcemaps", VBool false);
             ("sassSource", VStr "./scss");
             ("browsersync", plain [("open", VBool true)]) ] eq_refl))
           "./scss" eq_refl)).
Defined.

(** An override of some dev-server options keeps the default of every
    option it does not mention: under a key the override's [browsersync]
    object lacks, the options handed to the dev server hold the default. *)
Theorem browsersync_defaults_survive (c : ocls)
        (ps qs : list (string * value)) (k : string) :
  wf (VObj c ps) = true ->
  get (VObj c ps) "browsersync" = VObj Plain qs ->
  has_key (VObj Plain qs) k = false ->
  get (get (config (VObj c ps)) "browsersync") k
  = get (get default_config "browsersync") k.
Proof.
  intros Hwf Hb Hk. unfold config.
  rewrite get_merge_obj; [|reflexivity|exact Hwf|].
  - rewrite Hb. unfold newValue, mergeDeepWith.
    change (isObject (get default_config "browsersync")
            && negb (isFunction (get default_config "browsersync")))
      with true. cbv iota.
    destruct (baseMerge (get default_config "browsersync") (VObj Plain qs))
      eqn:E;
      try (rewrite <- E, baseMerge_entries; simpl entries;
           apply get_fold_other; apply assoc_get_None;
           simpl in Hk; now destruct (assoc_get k qs)).
    exfalso. pose proof (holds_props_baseMerge
                           (get default_config "browsersync") (VObj Plain qs)) as H.
    rewrite E in H. discriminate H.
  - apply get_obj_has_key. rewrite Hb. discriminate.
Qed.

Lemma browsersync_defaults_survive_example :
  let ps := [("browsersync", plain [("open", VBool true); ("port", VNum 3000)])] in
  wf (VObj Plain ps) = true
  /\ get (VObj Plain ps) "browsersync"
     = VObj Plain [("open", VBool true); ("port", VNum 3000)]
  /\ has_key (VObj Plain [("open", VBool true); ("port", VNum 3000)])
             "snippetOptions" = false
  /\ get (get (config (VObj Plain ps)) "browsersync") "snippetOptions"
     = get (get default_config "browsersync") "snippetOptions".
Proof.
  split; [reflexivity|]. split; [reflexivity|]. split; [reflexivity|].
  exact (@browsersync_defaults_survive Plain
           [("browsersync", plain [("open", VBool true); ("port", VNum 3000)])]
           [("open", VBool true); ("port", VNum 3000)]
           "snippetOptions" eq_refl eq_refl eq_refl).
Defined.

(** A local module that exports a primitive value other than a non-empty
    string -- [undefined], [null], a boolean, a number or the empty string
    -- changes nothing: the configuration is the default one. *)
Theorem non_object_override_is_ignored (local : value) :
  holds_props local = false ->
  isFunction local = false ->
  (forall ch s, local <> VStr (String ch s)) ->
  config local = default_config.
Proof.
  intros Hp Hf Hs. unfold config, merge.
  destruct local as [| |b|n|s|src|es ps|c ps]; try discriminate Hp;
    try discriminate Hf; try reflexivity.
  - now destruct b.
  - now destruct (truthy (VNum n)).
  - destruct s as [|ch s]; [reflexivity|]. now destruct (Hs ch s).
Qed.

Lemma non_object_override_is_ignored_example :
  holds_props VNull = false
  /\ isFunction VNull = false
  /\ (forall ch s, VNull <> VStr (String ch s))
  /\ config VNull = default_config.
Proof.
  assert (Hs : forall ch s, VNull <> VStr (String ch s)) by discriminate.
  split; [reflexivity|]. split; [reflexivity|]. split; [exact Hs|].
  exact (@non_object_override_is_ignored VNull eq_refl eq_refl Hs).
Defined.

End ConfigurationMore.

(* ================================================================== *)
(** * Further properties of the tasks *)
(* ================================================================== *)

Module TasksMore.
Import Js Lodash Gulpfile Demo Spec JsFacts LodashFacts GulpfileFacts.

(** Loading the local settings never throws and never touches the disk.
    The banner of a local build is written before the module is looked
    for, so a build without override writes both banners, the local one
    first. *)
Theorem load_local_banners (T : Tools) (found : option value) (w : World) :
  exists local w',
    load_local found w = (inl local, w')
    /\ local = match found with Some v => v | None => plain [] end
    /\ log w'
       = (log w
            ++ bgMagenta_bold " === Local build === "
            :: match found with
               | Some _ => []
               | None => [bgMagenta_bold " === Production build === "]
               end)%list
    /\ disk w' = disk w
    /\ session 0 [] w w'.
Proof.
  unfold load_local, try_catch, bind, require_local, gutil_log, throw, ret.
  destruct found as [v|]; simpl; eexists _, _;
    (split; [reflexivity|]); (split; [reflexivity|]); simpl.
  - split; [reflexivity|]. split; [reflexivity|].
    unfold session. simpl. rewrite Nat.add_0_r, app_nil_r. auto.
  - rewrite <- app_assoc. split; [reflexivity|]. split; [reflexivity|].
    unfold session. simpl. rewrite Nat.add_0_r, app_nil_r. auto.
Qed.

(** ** A bundle that succeeds *)

(** When the bundler succeeds, the app pipeline logs nothing and hands two
    files to [gulp.dest('./public/js')], its last stage: [app.js.map], and
    then [app.js], which is the bundle followed by the comment that refers
    to the map.  Under that directory the second is one of the paths whose
    change reloads the browser. *)
Theorem app_writes_bundle_and_map (T : Tools) (local : value) (w : World)
        (code : string) :
  rollup (app_rollupOptions local) (disk w) = Ok code ->
  let m := {| sm_file := "app.js"; sm_sources := ["app.js"];
              sm_mappings := "" |} in
  before_dest (app local) w
  = (inl [ {| path := "app.js.map"; contents := map_json m;
              sourceMap := None |};
           {| path := "app.js";
              contents := code ++ map_comment "app.js" "app.js.map";
              sourceMap := Some m |} ], w)
  /\ last (pipes (app local)) (pipe buffer) = pipe (gulp_dest "./public/js")
  /\ In (path_join "./public/js" "app.js") (w_globs watch_reload).
Proof.
  intros Hr m. unfold before_dest, app. simpl head. simpl pipes.
  unfold run_head, get_disk, bind at 1 2. simpl. rewrite Hr.
  split; [reflexivity|]. split; [reflexivity|]. simpl. auto.
Qed.

Lemma app_writes_bundle_and_map_demo :
  let m := {| sm_file := "app.js"; sm_sources := ["app.js"];
              sm_mappings := "" |} in
  rollup (app_rollupOptions (plain [])) (disk (fresh demo_disk))
  = Ok "var cfg = ENV_LOCAL;"
  /\ before_dest (app (plain [])) (fresh demo_disk)
     = (inl [ {| path := "app.js.map"; contents := map_json m;
                 sourceMap := None |};
              {| path := "app.js";
                 contents := "var cfg = ENV_LOCAL;"
                             ++ map_comment "app.js" "app.js.map";
                 sourceMap := Some m |} ], fresh demo_disk).
Proof.
  assert (Hr : rollup (app_rollupOptions (plain [])) (disk (fresh demo_disk))
               = Ok "var cfg = ENV_LOCAL;") by reflexivity.
  split; [exact Hr|].
  exact (proj1 (@app_writes_bundle_and_map demo_tools (plain [])
                  (fresh demo_disk) "var cfg = ENV_LOCAL;" Hr)).
Defined.

(** The same for the vendors pipeline: [vendors.js.map], then [vendors.js],
    handed to [gulp.dest('./public/js')]; the second is another of the
    watched outputs. *)
Theorem vendors_writes_bundle_and_map (T : Tools) (local : value) (w : World)
        (code : string) :
  rollup (vendors_rollupOptions local) (disk w) = Ok code ->
  let m := {| sm_file := "vendors.js"; sm_sources := ["vendors.js"];
              sm_mappings := "" |} in
  before_dest (vendors local) w
  = (inl [ {| path := "vendors.js.map"; contents := map_json m;
              sourceMap := None |};
           {| path := "vendors.js";
              contents := code ++ map_comment "vendors.js" "vendors.js.map";
              sourceMap := Some m |} ], w)
  /\ last (pipes (vendors local)) (pipe buffer)
     = pipe (gulp_dest "./public/js")
  /\ In (path_join "./public/js" "vendors.js") (w_globs watch_reload).
Proof.
  intros Hr m. unfold before_dest, vendors. simpl head. simpl pipes.
  unfold run_head, get_disk, bind at 1 2. simpl. rewrite Hr.
  split; [reflexivity|]. split; [reflexivity|]. simpl. auto.
Qed.

Lemma vendors_writes_bundle_and_map_demo :
  let m := {| sm_file := "vendors.js"; sm_sources := ["vendors.js"];
              sm_mappings := "" |} in
  rollup (vendors_rollupOptions (plain [])) (disk (fresh demo_disk))
  = Ok "require('x');"
  /\ before_dest (vendors (plain [])) (fresh demo_disk)
     = (inl [ {| path := "vendors.js.map"; contents := map_json m;
                 sourceMap := None |};
              {| path := "vendors.js";
                 contents := "require('x');"
                             ++ map_comment "vendors.js" "vendors.js.map";
                 sourceMap := Some m |} ], fresh demo_disk).
Proof.
  assert (Hr : rollup (vendors_rollupOptions (plain []))
                      (disk (fresh demo_disk))
               = Ok "require('x');") by reflexivity.
  split; [exact Hr|].
  exact (proj1 (@vendors_writes_bundle_and_map demo_tools (plain [])
                  (fresh demo_disk) "require('x');" Hr)).
Defined.

(** ** Stylesheets that fail, and none at all *)

(** When the first stylesheet does not compile, the sass task returns
    with nothing emitted: one line is logged for that error, ['end'] is
    emitted on the sass stream, and the disk is as it was, so the
    stylesheet written by an earlier run stays.  With no stylesheet at all
    the task returns with the world unchanged. *)
Theorem sass_first_failure_writes_nothing (T : Tools) (local : value)
        (w : World) (f : File) (rest : list File) (e : Error) :
  gulp_src (input_of (sass_task local)) (disk w) = f :: rest ->
  sass sassOptions (init_map f) = Err e ->
  (exists w',
      run_pipeline (sass_task local) w = (inl [], w')
      /\ log w' = (log w ++ [error_line e])%list
      /\ ended w' = (ended w ++ ["sass"])%list
      /\ disk w' = disk w)
  /\ (forall w0,
         gulp_src (input_of (sass_task local)) (disk w0) = [] ->
         run_pipeline (sass_task local) w0 = (inl [], w0)).
Proof.
  intros Hsrc Hsass. split.
  - change (input_of (sass_task local))
      with (add_str (get (config local) "sassSource") "/**/*.scss") in Hsrc.
    unfold run_pipeline, sass_task. simpl head. simpl pipes.
    unfold run_head, get_disk, bind at 1 2. simpl. rewrite Hsrc.
    unfold bind at 1.
    rewrite (run_piped_pass (pipe sourcemaps_init) _ w
                            (run_stage_files_init (f :: rest))).
    simpl stage. cbv iota. unfold bind at 1.
    unfold run_piped at 1. simpl. rewrite Hsass. simpl.
    unfold bind at 1 2 3. simpl.
    eexists. split; [reflexivity|]. simpl. auto.
  - intros w0 Hnil.
    change (input_of (sass_task local))
      with (add_str (get (config local) "sassSource") "/**/*.scss") in Hnil.
    unfold run_pipeline, sass_task. simpl head.
    unfold run_head, get_disk, bind at 1 2. simpl. rewrite Hnil.
    reflexivity.
Qed.

Lemma sass_first_failure_writes_nothing_demo :
  let w := fresh [("./resources/assets/sass/app.scss", "")] in
  let f := {| path := "app.scss"; contents := ""; sourceMap := None |} in
  let e := {| message := "app.scss: file to import not found or unreadable" |} in
  gulp_src (input_of (sass_task (plain []))) (disk w) = [f]
  /\ sass sassOptions (init_map f) = Err e
  /\ exists w',
      run_pipeline (sass_task (plain [])) w = (inl [], w')
      /\ log w' = (log w ++ [error_line e])%list
      /\ ended w' = (ended w ++ ["sass"])%list
      /\ disk w' = disk w.
Proof.
  split; [reflexivity|]. split; [reflexivity|].
  exact (proj1 (@sass_first_failure_writes_nothing demo_tools (plain [])
                  (fresh [("./resources/assets/sass/app.scss", "")])
                  {| path := "app.scss"; contents := ""; sourceMap := None |}
                  []
                  {| message := "app.scss: file to import not found or unreadable" |}
                  eq_refl eq_refl)).
Defined.

(** ** What is compiled is watched *)

(** Every stylesheet the sass task reads is watched for it: the glob the
    task reads with is the glob its watch binding is given, so a change of
    a path that glob matches starts [sass].  Likewise a change of a
    template the html plugin inlines starts [app]. *)
Theorem compiled_sources_are_watched (T : Tools) (local : value)
        (p : string) :
  (minimatch (input_of (sass_task local)) p = true ->
   In "sass" (tasks_started (watch_bindings local) p))
  /\ (forall inc opts,
         In (html inc opts) (plugins (app_rollupOptions local)) ->
         minimatch inc p = true ->
         In "app" (tasks_started (watch_bindings local) p)).
Proof.
  split.
  - intros Hm. unfold tasks_started, watch_bindings, watch_tasks.
    cbn [app flat_map w_action w_globs]. apply in_or_app. left.
    unfold watcher_matches. cbn [w_globs existsb].
    change (input_of (sass_task local))
      with (add_str (get (config local) "sassSource") "/**/*.scss") in Hm.
    rewrite Hm. now left.
  - intros inc opts Hin Hm.
    assert (Hinc : inc = add_str (get (config local) "appSource") "/**/*.html").
    { unfold app_rollupOptions in Hin. simpl in Hin.
      destruct Hin as [H | [H | [H | [H | []]]]]; try discriminate H.
      now injection H as <- _. }
    subst inc. unfold tasks_started, watch_bindings, watch_tasks.
    cbn [app flat_map w_action w_globs]. apply in_or_app. right.
    apply in_or_app. left.
    unfold watcher_matches. cbn [w_globs existsb].
    rewrite Hm, orb_true_r. now left.
Qed.

(** A change that one or more patterns of the reload binding match
    signals one reload, and none of the bindings is lost. *)
Theorem change_of_output_reloads_once (T : Tools) (local : value)
        (p : string) (w : World) :
  watchers w = watch_bindings local ->
  existsb (fun g => minimatch g p) (w_globs watch_reload) = true ->
  exists w',
    on_change local p w = (inl tt, w')
    /\ reloads w' = S (reloads w)
    /\ watchers w' = watchers w.
Proof.
  intros Hw Hex.
  pose proof (watch_bindings_leaf local) as Hleaf. rewrite <- Hw in Hleaf.
  destruct (on_change_effect local p w Hleaf) as (w' & E & S).
  exists w'. split; [exact E|].
  destruct S as (W & _ & R & _). split; [|exact W].
  rewrite R, Hw. unfold reload_count, watch_bindings, watch_tasks. simpl.
  unfold watcher_matches at 1. simpl w_globs. simpl w_globs in Hex.
  rewrite Hex. simpl. lia.
Qed.

Lemma change_of_output_reloads_once_demo :
  let p := "./public/css/app.css" in
  let w := snd (start (plain []) "watch" (fresh demo_disk)) in
  watchers w = watch_bindings (plain [])
  /\ existsb (fun g => minimatch g p) (w_globs watch_reload) = true
  /\ exists w',
      on_change (plain []) p w = (inl tt, w')
      /\ reloads w' = S (reloads w)
      /\ watchers w' = watchers w.
Proof.
  assert (Hw : watchers (snd (start (plain []) "watch" (fresh demo_disk)))
               = watch_bindings (plain [])) by (vm_compute; reflexivity).
  assert (Hex : existsb (fun g => minimatch g "./public/css/app.css")
                        (w_globs watch_reload) = true)
    by (vm_compute; reflexivity).
  split; [exact Hw|]. split; [exact Hex|].
  exact (@change_of_output_reloads_once demo_tools (plain [])
           "./public/css/app.css" _ Hw Hex).
Defined.

(** ** The sources are never written *)

Lemma disk_read_write_other q p c d :
  q <> p -> disk_read q (disk_write p c d) = disk_read q d.
Proof.
  intros N. induction d as [|[p' c'] r IH]; simpl.
  - destruct (String.eqb_spec q p); [contradiction|reflexivity].
  - destruct (String.eqb_spec p p') as [->|Np]; simpl.
    + destruct (String.eqb_spec q p'); [contradiction|reflexivity].
    + destruct (String.eqb_spec q p'); [reflexivity|exact IH].
Qed.

Lemma disk_outside_refl w : disk_outside w w.
Proof. intros q _. reflexivity. Qed.

Lemma disk_outside_trans w1 w2 w3 :
  disk_outside w1 w2 -> disk_outside w2 w3 -> disk_outside w1 w3.
Proof. intros H1 H2 q Hq. now rewrite (H2 q Hq), (H1 q Hq). Qed.

Lemma always_ret {A : Type} (a : A) : always (ret a) disk_outside.
Proof. intros w. apply disk_outside_refl. Qed.

Lemma always_throw {A : Type} (e : Error) :
  always (throw (A:=A) e) disk_outside.
Proof. intros w. apply disk_outside_refl. Qed.

Lemma always_bind {A B : Type} (m : M A) (k : A -> M B) :
  always m disk_outside -> (forall a, always (k a) disk_outside) ->
  always (bind m k) disk_outside.
Proof.
  intros Hm Hk w. unfold bind. specialize (Hm w).
  destruct (m w) as [[a|e] w1]; simpl in *; [|exact Hm].
  eapply disk_outside_trans; [exact Hm|apply Hk].
Qed.

Lemma always_forM {A : Type} (l : list A) (f : A -> M unit) :
  (forall x, always (f x) disk_outside) -> always (forM l f) disk_outside.
Proof.
  intros Hf. induction l as [|x r IH]; simpl; [apply always_ret|].
  apply always_bind; [apply Hf|intros _; exact IH].
Qed.

Lemma always_same_disk (f : World -> World) :
  (forall w, disk (f w) = disk w) ->
  always (fun w => (inl tt, f w)) disk_outside.
Proof. intros H w q _. simpl. now rewrite H. Qed.

Lemma always_write_file p c :
  under_public p = true -> always (write_file p c) disk_outside.
Proof.
  intros Hp w q Hq. simpl. apply disk_read_write_other.
  intros ->. congruence.
Qed.

Section Frame.
Context {T : Tools}.

Lemma always_onError this e : always (onError this e) disk_outside.
Proof.
  unfold onError. apply always_bind; [|intros _];
    now apply always_same_disk.
Qed.

Lemma under_public_dest dir x :
  String.eqb dir "./public/js" || String.eqb dir "./public/css" = true ->
  under_public (path_join dir x) = true.
Proof.
  rewrite orb_true_iff, !String.eqb_eq.
  intros [-> | ->]; destruct x; reflexivity.
Qed.

Lemma always_run_piped p fs :
  dest_public (stage p) = true -> always (run_piped p fs) disk_outside.
Proof.
  intros Hd. unfold run_piped.
  destruct (run_stage_files (stage p) fs) as [outs failure].
  apply always_bind; [|intros _; apply always_bind].
  - destruct failure as [e|]; [|apply always_ret].
    unfold emit_error. destruct (handled p);
      [apply always_onError|apply always_throw].
  - destruct (stage p); try apply always_ret.
    apply always_forM. intros f. apply always_write_file.
    now apply under_public_dest.
  - intros _. apply always_ret.
Qed.

Lemma always_run_pipeline p :
  forallb (fun q => dest_public (stage q)) (pipes p) = true ->
  always (run_pipeline p) disk_outside.
Proof.
  intros Hp. unfold run_pipeline. apply always_bind.
  - unfold run_head. apply always_bind; [intros w; apply disk_outside_refl|].
    intros d. destruct (head p) as [glob|o on_error file];
      [apply always_ret|].
    destruct (rollup o d); [apply always_ret|].
    apply always_bind; [|intros _; apply always_ret].
    unfold emit_error. destruct on_error;
      [apply always_onError|apply always_throw].
  - intros fs. revert fs. induction (pipes p) as [|q r IH]; intros fs; simpl.
    + apply always_ret.
    + simpl in Hp. apply andb_true_iff in Hp. destruct Hp as [Hq Hr].
      apply always_bind; [now apply always_run_piped|].
      intros outs. now apply IH.
Qed.

Lemma always_drain p :
  forallb (fun q => dest_public (stage q)) (pipes p) = true ->
  always (drain p) disk_outside.
Proof.
  intros Hp. unfold drain.
  apply always_bind; [now apply always_run_pipeline|intros _; apply always_ret].
Qed.

Lemma always_task_action local name :
  always (task_action local name) disk_outside.
Proof.
  unfold task_action. apply always_bind; [now apply always_same_disk|].
  intros _. unfold task_body.
  repeat (match goal with
          | |- always (if ?b then _ else _) _ => destruct b
          end);
    try apply always_ret; try apply always_throw;
    try (apply always_drain; reflexivity).
  - unfold watch. apply always_bind.
    + apply always_forM. intros b. now apply always_same_disk.
    + intros _. now apply always_same_disk.
  - unfold serve. now apply always_same_disk.
Qed.

Lemma always_start_at local d name :
  always (start_at local d name) disk_outside.
Proof.
  revert name. induction d as [|d IH]; intros name; simpl.
  - apply always_task_action.
  - apply always_bind; [apply always_forM; exact IH|].
    intros _. apply always_task_action.
Qed.

Lemma always_on_change local p : always (on_change local p) disk_outside.
Proof.
  intros w. unfold on_change.
  apply (always_forM (filter (fun b => watcher_matches b p) (watchers w))
                     (fire local)).
  intros b. unfold fire. destruct (w_action b) as [names|].
  - apply always_forM. intros n. apply always_start_at.
  - now apply always_same_disk.
Qed.

End Frame.

(** Whatever the tools do and whether or not anything fails, starting a
    task (registered or not) or handling a change while watching leaves
    every file outside [./public/js/] and [./public/css/] as it was: the
    sources are read, never written. *)
Theorem tasks_write_only_under_public (T : Tools) (local : value)
        (name p q : string) (w : World) :
  under_public q = false ->
  disk_read q (disk (snd (start local name w))) = disk_read q (disk w)
  /\ disk_read q (disk (snd (on_change local p w))) = disk_read q (disk w).
Proof.
  intros Hq. split.
  - exact (always_start_at local 3 name w q Hq).
  - exact (always_on_change local p w q Hq).
Qed.

Lemma tasks_write_only_under_public_demo :
  let q := "./resources/assets/app/app.js" in
  under_public q = false
  /\ disk_read q (disk (snd (start (plain []) "default" (fresh demo_disk))))
     = Some "var cfg = ENV_LOCAL;".
Proof.
  split; [reflexivity|].
  exact (proj1 (@tasks_write_only_under_public demo_tools (plain [])
                  "default" "" "./resources/assets/app/app.js"
                  (fresh demo_disk) eq_refl)).
Defined.

End TasksMore.
